(** * Noun-phrase marking and grouping for np2vec corpus preparation

    A shallow embedding of

    - [nlp_architect/utils/text.py]: [spacy_normalizer], and
    - [solutions/set_expansion/prepare_data.py]: the per-document loop that
      walks tokens and noun-chunk spans in lock step, writes the marked
      corpus and (with [--grouping]) maintains the four module-level tables
      [np2id], [id2group], [id2rep] and [np2count].

    Python [str] values are modelled by [string]: a character is an
    [ascii], read as the code point of that number (0 to 255), and the
    character predicates below are Python's on these code points.  Python
    [int] is [Z].  A Python
    [dict] keyed by strings is a [gmap string _]; a raised exception
    ([IndexError], [KeyError]) is [None] in the option monad. *)

From Stdlib Require Import ZArith Ascii.
From stdpp Require Import gmap strings list fin_maps.

(** ** Python string primitives *)

Module PyStr.

(** [len(s)] *)
Definition len (s : string) : Z := Z.of_nat (String.length s).

Definition chars (s : string) : list ascii := String.list_ascii_of_string s.

Definition code (c : ascii) : N := Ascii.N_of_ascii c.

Definition between (lo hi : N) (c : ascii) : bool :=
  ((lo <=? code c) && (code c <=? hi))%N.

(** [c.isspace()], which [strip()] and [split()] go by: TAB to CR, FS to
    SPACE, NEXT LINE (U+0085) and NO-BREAK SPACE (U+00A0). *)
Definition isspace_c (c : ascii) : bool :=
  between 9 13 c || between 28 32 c || between 133 133 c
  || between 160 160 c.

(** Upper-case characters: A to Z, and U+00C0 to U+00DE without the
    multiplication sign U+00D7. *)
Definition isupper_c (c : ascii) : bool :=
  between 65 90 c || between 192 214 c || between 216 222 c.

(** Lower-case characters: a to z, the ordinal indicators U+00AA and
    U+00BA, the micro sign U+00B5, and U+00DF to U+00FF without the
    division sign U+00F7. *)
Definition islower_c (c : ascii) : bool :=
  between 97 122 c || between 170 170 c || between 181 181 c
  || between 186 186 c || between 223 246 c || between 248 255 c.

(** [s.isupper()]: no lower-case character and at least one cased one. *)
Definition isupper (s : string) : bool :=
  forallb (fun c => negb (islower_c c)) (chars s) && existsb isupper_c (chars s).

(** "purely whitespace" (also true of the empty string). *)
Definition all_space (s : string) : bool := forallb isspace_c (chars s).

(** [s.endswith(suffix)] *)
Fixpoint endswith (s suffix : string) : bool :=
  if String.eqb s suffix then true
  else match s with
       | EmptyString => false
       | String _ s' => endswith s' suffix
       end.

Fixpoint lstrip (s : string) : string :=
  match s with
  | EmptyString => EmptyString
  | String c s' => if isspace_c c then lstrip s' else s
  end.

Fixpoint rstrip (s : string) : string :=
  match s with
  | EmptyString => EmptyString
  | String c s' =>
      match rstrip s' with
      | EmptyString => if isspace_c c then EmptyString else String c EmptyString
      | r => String c r
      end
  end.

(** [s.strip()] *)
Definition strip (s : string) : string := rstrip (lstrip s).

(** Splitting at every character satisfying [p], empty pieces kept:
    [re.split] with a one-character class, and [s.split(sep)] with a
    one-character [sep]. *)
Fixpoint split_at (p : ascii -> bool) (s : string) : list string :=
  match s with
  | EmptyString => [EmptyString]
  | String c s' =>
      if p c then EmptyString :: split_at p s'
      else match split_at p s' with
           | w :: ws => String c w :: ws
           | [] => [String c EmptyString]
           end
  end.

Definition nonempty (s : string) : bool :=
  match s with EmptyString => false | _ => true end.

(** [s.split()]: whitespace runs separate, no empty piece is returned. *)
Definition split (s : string) : list string :=
  List.filter nonempty (split_at isspace_c s).

(** [sep.join(l)] *)
Definition join (sep : string) (l : list string) : string := String.concat sep l.

(** [sub in s] *)
Fixpoint contains (sub s : string) : bool :=
  if String.prefix sub s then true
  else match s with
       | EmptyString => false
       | String _ s' => contains sub s'
       end.

(** [s.replace(old, new)] for a non-empty [old]: occurrences are found
    left to right and do not overlap.  [skip] counts the characters of
    the occurrence just replaced that are still to be dropped. *)
Fixpoint replace_from (old new : string) (skip : nat) (s : string) : string :=
  match s with
  | EmptyString => EmptyString
  | String c s' =>
      match skip with
      | S k => replace_from old new k s'
      | O =>
          if String.prefix old s
          then new +:+ replace_from old new (String.length old - 1) s'
          else String c (replace_from old new 0 s')
      end
  end.

(** With an empty [old], Python inserts [new] before every character and
    at the end. *)
Fixpoint intersperse (new s : string) : string :=
  match s with
  | EmptyString => new
  | String c s' => new +:+ String c (intersperse new s')
  end.

Definition replace (old new s : string) : string :=
  match old with
  | EmptyString => intersperse new s
  | _ => replace_from old new 0 s
  end.

End PyStr.

(** ** [nlp_architect.utils.text] *)

Module Text.
Import PyStr.

(** [p = re.compile(r'[ \-,;.@&_]')] *)
Definition p (c : ascii) : bool :=
  match c with
  | " " | "-" | "," | ";" | "." | "@" | "&" | "_" => true
  | _ => false
  end%char.

(** The guard of both normalizers: the phrase is normalized unless it is
    upper case, ends in [S] and is a single word. *)
Definition needs_normalizing (text : string) : bool :=
  negb (isupper text) || negb (endswith text "S")
  || negb (Nat.eqb (length (split text)) 1).

Section Normalizer.
(** [stemmer.stem] of nltk's [EnglishStemmer]. *)
Variable stem : string -> string.
(** [spacy_lemmatizer(t, pos)]: the list of lemmas spaCy returns. *)
Variable spacy_lemmatizer : string -> string -> list string.

(** [stemmer.stem(spacy_lemmatizer(t, u'NOUN')[0])]; indexing an empty
    list raises. *)
Definition stem_lemma (t : string) : option string :=
  stem <$> head (spacy_lemmatizer t "NOUN").

Definition spacy_normalizer (text : string) (lemma : option string)
  : option string :=
  if needs_normalizing text then
    let tokens := List.filter nonempty (split_at p (strip text)) in
    match lemma with
    | Some (String c l) =>
        let lemma := split_at (Ascii.eqb " ") (String c l) in
        Some (join " " (stem <$> lemma))
    | _ =>
        pieces ← mapM stem_lemma tokens;
        Some (join " " pieces)
    end
  else Some text.

End Normalizer.

Section SimpleNormalizer.
Variable stem : string -> string.
(** [lemmatizer.lemmatize] of nltk's [WordNetLemmatizer]. *)
Variable lemmatize : string -> string.

(** Lines 169-180. *)
Definition simple_normalizer (text : string) : string :=
  if needs_normalizing text then
    let tokens := List.filter nonempty (split_at p (strip text)) in
    join " " ((fun t => stem (lemmatize t)) <$> tokens)
  else text.

End SimpleNormalizer.
End Text.

(** ** Python dictionaries, in insertion order *)

Module PyDict.
Section Dict.
Context {K V : Type} `{EqDecision K}.

(** [d.get(k)] *)
Fixpoint get (d : list (K * V)) (k : K) : option V :=
  match d with
  | [] => None
  | (k', v) :: d' => if decide (k' = k) then Some v else get d' k
  end.

(** [d[k] = v]: a known key keeps its place, a new one goes last. *)
Fixpoint set (k : K) (v : V) (d : list (K * V)) : list (K * V) :=
  match d with
  | [] => [(k, v)]
  | (k', v') :: d' =>
      if decide (k' = k) then (k', v) :: d' else (k', v') :: set k v d'
  end.

End Dict.
End PyDict.

(** ** [nlp_architect.utils.text.Vocabulary] *)

Module Vocab.

Record Vocabulary := {
  _vocab : list (string * Z);
  _rev_vocab : list (Z * string);
  next : Z
}.

(** [Vocabulary(start)] *)
Definition init (start : Z) : Vocabulary :=
  {| _vocab := []; _rev_vocab := []; next := start |}.

(** [add(word)]: the vocabulary after the call and the returned id. *)
Definition add (word : string) (self : Vocabulary) : Vocabulary * option Z :=
  let self' :=
    match PyDict.get (_vocab self) word with
    | None =>
        {| _vocab := PyDict.set word (next self) (_vocab self);
           _rev_vocab := PyDict.set (next self) word (_rev_vocab self);
           next := (next self + 1)%Z |}
    | Some _ => self
    end in
  (self', PyDict.get (_vocab self') word).

(** [word_id(word)] *)
Definition word_id (self : Vocabulary) (word : string) : option Z :=
  PyDict.get (_vocab self) word.

(** [__len__] *)
Definition len (self : Vocabulary) : Z := Z.of_nat (length (_vocab self)).

(** [id_to_word(wid)] *)
Definition id_to_word (self : Vocabulary) (wid : Z) : option string :=
  PyDict.get (_rev_vocab self) wid.

(** The property [vocab]. *)
Definition vocab (self : Vocabulary) : list (string * Z) := _vocab self.

(** [reverse_vocab()] *)
Definition reverse_vocab (self : Vocabulary) : list (Z * string) :=
  _rev_vocab self.

(** [add_vocab_offset(offset)]: the loop over [self.vocab.items()] and the
    dictionary comprehension, each entry set in turn. *)
Definition add_vocab_offset (offset : Z) (self : Vocabulary) : Vocabulary :=
  let new_vocab :=
    foldl (fun acc kv => PyDict.set kv.1 (kv.2 + offset)%Z acc) [] (vocab self) in
  {| _vocab := new_vocab;
     _rev_vocab := foldl (fun acc kv => PyDict.set kv.2 kv.1 acc) [] new_vocab;
     next := (next self + offset)%Z |}.

End Vocab.

(** ** [solutions/set_expansion/prepare_data.py] *)

Module PrepareData.
Import PyStr.

(** What the loop reads of a spaCy token: [token.text], [token.idx]. *)
Record Token := { token_text : string; idx : Z }.

(** What the loop reads of a noun chunk: [span.start_char],
    [span.end_char], [span.text], [span.lemma_]. *)
Record Span := { start_char : Z; end_char : Z; text : string; lemma_ : string }.

(** A parsed line: [for token in doc] and [doc.noun_chunks]. *)
Record Doc := { tokens : list Token; noun_chunks : list Span }.

(** [args.mark_char], [args.grouping] *)
Record Args := { mark_char : string; grouping : bool }.

(** The module-level dictionaries. *)
Record Tables := {
  np2id : gmap string string;
  id2group : gmap string (list string);
  id2rep : gmap string string;
  np2count : gmap string Z
}.

Definition empty_tables : Tables :=
  {| np2id := ∅; id2group := ∅; id2rep := ∅; np2count := ∅ |}.

(** The state of the token loop of one document: the tables, the text
    written to [marked_corpus_file] so far, and the span cursor. *)
Record Loop := {
  tables : Tables;
  written : string;
  span : option Span;
  spans : list Span;
  spanWritten : bool
}.

Definition nl : string := String (ascii_of_nat 10) EmptyString.
Definition PRON : string := "-PRON-".

(** [marked_corpus_file.write(s)] *)
Definition write (s : string) (st : Loop) : Loop :=
  {| tables := tables st; written := written st +:+ s; span := span st;
     spans := spans st; spanWritten := spanWritten st |}.

(** [if len(spans) > 0: span = spans.pop(0) else: span = None] *)
Definition pop0 (l : list Span) : option Span * list Span :=
  match l with
  | [] => (None, [])
  | s :: rest => (Some s, rest)
  end.

(** [if len(token.text.strip()) > 0: write(token.text + ' ')] *)
Definition write_token (token : Token) (st : Loop) : Loop :=
  if (0 <? len (strip (token_text token)))%Z
  then write (token_text token +:+ " ") st
  else st.

(** [token.idx < span.start_char or token.idx >= span.end_char] *)
Definition outside (token : Token) (sp : Span) : bool :=
  ((idx token <? start_char sp) || (end_char sp <=? idx token))%Z.

(** [len(span.text) > 1 and span.lemma_ != '-PRON-'] *)
Definition accepted (sp : Span) : bool :=
  (1 <? len (text sp))%Z && negb (String.eqb (lemma_ sp) PRON).

(** Lines 115-118: count one more occurrence of [np]. *)
Definition count_np (np : string) (c : gmap string Z) : gmap string Z :=
  match c !! np with
  | None => <[np := 1%Z]> c
  | Some n => <[np := (n + 1)%Z]> c
  end.

(** Lines 120-121. *)
Definition sanitize (mark norm : string) : string :=
  if contains mark norm then replace mark " " norm else norm.

(** Lines 122-132, once the key [norm] is known and [np] is counted. *)
Definition group_update (np norm : string) (tb : Tables) : option Tables :=
  let np2id' := <[np := norm]> (np2id tb) in
  let id2rep1 :=
    match id2rep tb !! norm with
    | None => <[norm := np]> (id2rep tb)
    | Some _ => id2rep tb
    end in
  match id2group tb !! norm with
  | Some group =>
      if decide (np ∈ group) then
        c ← np2count tb !! np;
        rep ← id2rep1 !! norm;
        crep ← np2count tb !! rep;
        Some {| np2id := np2id'; id2group := id2group tb;
                id2rep := if (crep <? c)%Z then <[norm := np]> id2rep1 else id2rep1;
                np2count := np2count tb |}
      else
        Some {| np2id := np2id'; id2group := <[norm := group ++ [np]]> (id2group tb);
                id2rep := id2rep1; np2count := np2count tb |}
  | None =>
      Some {| np2id := np2id'; id2group := <[norm := [np]]> (id2group tb);
              id2rep := <[norm := np]> id2rep1; np2count := np2count tb |}
  end.

Definition with_count (c : gmap string Z) (tb : Tables) : Tables :=
  {| np2id := np2id tb; id2group := id2group tb; id2rep := id2rep tb;
     np2count := c |}.

Section Marking.
Variable stem : string -> string.
Variable spacy_lemmatizer : string -> string -> list string.
Variable args : Args.

(** The normalized key of a span, lines 119-121. *)
Definition key_of (np lemma : string) : option string :=
  sanitize (mark_char args)
    <$> Text.spacy_normalizer stem spacy_lemmatizer np (Some lemma).

(** Lines 114-134: the grouping branch.  Returns the marked text. *)
Definition group_np (np lemma : string) (tb : Tables)
  : option (string * Tables) :=
  let tb1 := with_count (count_np np (np2count tb)) tb in
  norm ← key_of np lemma;
  tb2 ← group_update np norm tb1;
  Some (replace " " (mark_char args) norm +:+ mark_char args, tb2).

(** Lines 111-140: what is written for a span, and the tables after. *)
Definition mark_span (sp : Span) (tb : Tables) : option (string * Tables) :=
  if accepted sp then
    if grouping args then
      '(text', tb') ← group_np (text sp) (lemma_ sp) tb;
      Some (text' +:+ " ", tb')
    else
      Some ((replace " " (mark_char args) (text sp) +:+ mark_char args) +:+ " ", tb)
  else Some (text sp +:+ " ", tb).

(** Lines 109-141. *)
Definition write_span (sp : Span) (st : Loop) : option Loop :=
  if spanWritten st then Some st
  else
    '(s, tb) ← mark_span sp (tables st);
    Some {| tables := tb; written := written st +:+ s; span := span st;
            spans := spans st; spanWritten := true |}.

(** Lines 142-147. *)
Definition advance (token : Token) (sp : Span) (st : Loop) : Loop :=
  if (idx token + len (token_text token) =? end_char sp)%Z then
    let '(s, rest) := pop0 (spans st) in
    {| tables := tables st; written := written st; span := s;
       spans := rest; spanWritten := false |}
  else st.

(** The body of [for token in doc], lines 100-147. *)
Definition process_token (st : Loop) (token : Token) : option Loop :=
  match span st with
  | None => Some (write_token token st)
  | Some sp =>
      if outside token sp then Some (write_token token st)
      else
        st1 ← write_span sp st;
        Some (advance token sp st1)
  end.

Fixpoint process_tokens (st : Loop) (toks : list Token) : option Loop :=
  match toks with
  | [] => Some st
  | token :: rest =>
      st' ← process_token st token;
      process_tokens st' rest
  end.

(** Lines 90-98: the loop state a document starts in. *)
Definition start (tb : Tables) (out : string) (doc : Doc) : Loop :=
  let '(s, rest) := pop0 (noun_chunks doc) in
  {| tables := tb; written := out; span := s; spans := rest;
     spanWritten := false |}.

(** One iteration of [for doc in nlp.pipe(corpus_file)]. *)
Definition process_doc (st : Tables * string) (doc : Doc)
  : option (Tables * string) :=
  st' ← process_tokens (start st.1 st.2 doc) (tokens doc);
  Some (tables st', written st' +:+ nl).

Fixpoint process_docs (st : Tables * string) (docs : list Doc)
  : option (Tables * string) :=
  match docs with
  | [] => Some st
  | doc :: rest =>
      st' ← process_doc st doc;
      process_docs st' rest
  end.

(** The whole run: the tables start empty, the output file too. *)
Definition process_corpus (docs : list Doc) : option (Tables * string) :=
  process_docs (empty_tables, "") docs.

End Marking.
End PrepareData.

(** ** Vocabulary of the properties *)

Module Claims.
Import PyStr PrepareData.

(** What a token outside every span leaves in the output. *)
Definition verbatim (token : Token) : string :=
  if all_space (token_text token) then "" else token_text token +:+ " ".

(** The token's characters [idx, idx + len) against the span's
    [start_char, end_char). *)
Definition range_outside (token : Token) (sp : Span) : Prop :=
  (idx token + len (token_text token) <= start_char sp
   ∨ end_char sp <= idx token)%Z.

(** The text of a run of tokens that no span claims. *)
Definition verbatim_all (toks : list Token) : string :=
  foldr (fun token s => verbatim token +:+ s) "" toks.

(** Every space character gives way to the marker. *)
Fixpoint mark_spaces (mark s : string) : string :=
  match s with
  | EmptyString => EmptyString
  | String c s' =>
      (if Ascii.eqb c " " then mark else String c EmptyString)
        +:+ mark_spaces mark s'
  end.

(** Every run of whitespace gives way to one marker; [in_run] tells that
    the previous character was whitespace. *)
Fixpoint mark_runs (mark : string) (in_run : bool) (s : string) : string :=
  match s with
  | EmptyString => EmptyString
  | String c s' =>
      if isspace_c c then
        if in_run then mark_runs mark true s'
        else mark +:+ mark_runs mark true s'
      else String c (mark_runs mark false s')
  end.


(** The cursor moved on to the next span of the line. *)
Definition advanced (st st' : Loop) : Prop :=
  (span st', spans st') = pop0 (spans st).

(** No character of the string is a space. *)
Definition no_space (s : string) : bool :=
  forallb (fun c => negb (Ascii.eqb c " ")) (chars s).

(** *** The grouping tables *)

(** [np2count[v]], zero for a phrase never counted. *)
Definition count_of (tb : Tables) (v : string) : Z :=
  default 0%Z (np2count tb !! v).

(** The representative of a key is one of its variants, and none of them
    has been counted more often. *)
Definition rep_most_frequent (tb : Tables) : Prop :=
  ∀ k r, id2rep tb !! k = Some r →
    ∃ group, id2group tb !! k = Some group ∧ r ∈ group
      ∧ ∀ v, v ∈ group → (count_of tb v <= count_of tb r)%Z.

(** The first, in the order of the list, of the variants counted most
    often. *)
Fixpoint first_max (c : string → Z) (best : string) (l : list string) : string :=
  match l with
  | [] => best
  | v :: l' => first_max c (if (c best <? c v)%Z then v else best) l'
  end.

Definition first_most_frequent (tb : Tables) (group : list string) : option string :=
  match group with
  | [] => None
  | v :: l => Some (first_max (count_of tb) v l)
  end.

(** The invariant as the data model words it: ties go to the variant seen
    first. *)
Definition rep_first_most_frequent (tb : Tables) : Prop :=
  ∀ k group, id2group tb !! k = Some group →
    id2rep tb !! k = first_most_frequent tb group.

(** The tables never make a lookup of the grouping branch fail: a key has
    a representative exactly when it has a group, the representative is in
    the group, and every variant of a group has been counted. *)
Record well_formed (tb : Tables) : Prop := {
  wf_group_rep : ∀ k, is_Some (id2group tb !! k) ↔ is_Some (id2rep tb !! k);
  wf_rep_in : ∀ k r group,
    id2rep tb !! k = Some r → id2group tb !! k = Some group → r ∈ group;
  wf_counted : ∀ k group v,
    id2group tb !! k = Some group → v ∈ group → is_Some (np2count tb !! v)
}.

(** *** The spans a document has marked *)

(** The spans that reach the marking branch (lines 112-138), in the order
    the loop meets them: the cursor of the token loop, without the output
    and the tables. *)
Fixpoint marked_from (sp : option Span) (rest : list Span) (w : bool)
    (toks : list Token) : list Span :=
  match toks with
  | [] => []
  | token :: toks' =>
      match sp with
      | None => marked_from None rest w toks'
      | Some s =>
          if outside token s then marked_from sp rest w toks'
          else
            (if w then [] else if accepted s then [s] else [])
            ++ (if (idx token + len (token_text token) =? end_char s)%Z
                then marked_from (pop0 rest).1 (pop0 rest).2 false toks'
                else marked_from sp rest true toks')
      end
  end.

Definition marked_spans (doc : Doc) : list Span :=
  marked_from (pop0 (noun_chunks doc)).1 (pop0 (noun_chunks doc)).2 false
    (tokens doc).

Section Grouping.
Variable stem : string -> string.
Variable spacy_lemmatizer : string -> string -> list string.
Variable args : Args.

(** The grouping branch run over a list of spans. *)
Fixpoint group_nps (tb : Tables) (occs : list Span) : option Tables :=
  match occs with
  | [] => Some tb
  | sp :: occs' =>
      r ← group_np stem spacy_lemmatizer args (text sp) (lemma_ sp) tb;
      group_nps r.2 occs'
  end.

(** The key of a span. *)
Definition span_key (sp : Span) : option string :=
  key_of stem spacy_lemmatizer args (text sp) (lemma_ sp).

(** A phrase has one key: spans with the same text get the same key,
    whatever their lemmas. *)
Definition one_key_per_phrase (docs : list Doc) : Prop :=
  ∀ d1 d2 sp1 sp2,
    d1 ∈ docs → d2 ∈ docs → sp1 ∈ noun_chunks d1 → sp2 ∈ noun_chunks d2 →
    text sp1 = text sp2 → span_key sp1 = span_key sp2.

(** Spans with the same text have the same key. *)
Definition one_key (S : list Span) : Prop :=
  ∀ sp1 sp2, sp1 ∈ S → sp2 ∈ S → text sp1 = text sp2 →
    span_key sp1 = span_key sp2.

(** The same, as a check that runs. *)
Definition one_key_check (S : list Span) : bool :=
  forallb (fun sp1 =>
    forallb (fun sp2 =>
      negb (bool_decide (text sp1 = text sp2))
      || bool_decide (span_key sp1 = span_key sp2)) S) S.

(** How often a phrase is met in a list of spans. *)
Definition occurrences (v : string) (occs : list Span) : Z :=
  Z.of_nat (length (filter (fun sp => text sp = v) occs)).

(** The tables while every phrase met so far kept one key; [S] holds the
    spans the keys come from. *)
Record tracked (S : list Span) (tb : Tables) : Prop := {
  tr_wf : well_formed tb;
  tr_member_key : ∀ k group v,
    id2group tb !! k = Some group → v ∈ group → np2id tb !! v = Some k;
  tr_keyed : ∀ v k,
    np2id tb !! v = Some k → ∃ sp, sp ∈ S ∧ text sp = v ∧ span_key sp = Some k;
  tr_counted : ∀ v c,
    np2count tb !! v = Some c → (1 <= c)%Z ∧ is_Some (np2id tb !! v);
  tr_key_member : ∀ v k,
    np2id tb !! v = Some k → ∃ group, id2group tb !! k = Some group ∧ v ∈ group;
  tr_max : rep_most_frequent tb
}.

End Grouping.

(** *** Phrases and their tokens *)

(** The tokens both normalizers split a phrase into (lines 177 and 195). *)
Definition phrase_tokens (text : string) : list string :=
  List.filter nonempty (split_at Text.p (strip text)).

(** The string without its separator characters. *)
Fixpoint without_separators (s : string) : string :=
  match s with
  | EmptyString => EmptyString
  | String c s' =>
      if Text.p c then without_separators s' else String c (without_separators s')
  end.

(** The strings of a list, one after the other. *)
Definition glue (l : list string) : string := foldr String.append "" l.

(** No character of the string is a separator. *)
Definition separator_free (s : string) : bool :=
  forallb (fun c => negb (Text.p c)) (chars s).

(** *** Documents whose spans are runs of tokens *)

(** A line as the parser cuts it: a token outside every noun chunk, or a
    noun chunk with the tokens it is made of. *)
Inductive Piece :=
  | Free (token : Token)
  | Phrase (sp : Span) (toks : list Token).

Definition piece_tokens (pc : Piece) : list Token :=
  match pc with
  | Free token => [token]
  | Phrase _ toks => toks
  end.

Definition piece_spans (pc : Piece) : list Span :=
  match pc with
  | Free _ => []
  | Phrase sp _ => [sp]
  end.

Definition doc_of (ps : list Piece) : Doc :=
  {| tokens := concat (piece_tokens <$> ps);
     noun_chunks := concat (piece_spans <$> ps) |}.

(** The tokens start inside the span, and the last one, and only it, ends
    where the span ends. *)
Fixpoint covers (sp : Span) (toks : list Token) : Prop :=
  match toks with
  | [] => False
  | token :: toks' =>
      outside token sp = false
      ∧ match toks' with
        | [] => (idx token + len (token_text token))%Z = end_char sp
        | _ => (idx token + len (token_text token))%Z ≠ end_char sp
               ∧ covers sp toks'
        end
  end.

(** Every chunk is covered by its tokens, and a free token does not start
    inside the chunk that comes next. *)
Fixpoint aligned (ps : list Piece) : Prop :=
  match ps with
  | [] => True
  | Free token :: ps' =>
      match head (concat (piece_spans <$> ps')) with
      | Some sp => outside token sp = true
      | None => True
      end
      ∧ aligned ps'
  | Phrase sp toks :: ps' => covers sp toks ∧ aligned ps'
  end.

Section Rendering.
Variable stem : string -> string.
Variable spacy_lemmatizer : string -> string -> list string.
Variable args : Args.

(** What a line should come to, piece by piece: a free token is copied, a
    chunk is marked once. *)
Fixpoint emit_pieces (ps : list Piece) (st : Tables * string)
  : option (Tables * string) :=
  match ps with
  | [] => Some st
  | Free token :: ps' => emit_pieces ps' (st.1, st.2 +:+ verbatim token)
  | Phrase sp _ :: ps' =>
      r ← mark_span stem spacy_lemmatizer args sp st.1;
      emit_pieces ps' (r.2, st.2 +:+ r.1)
  end.

(** The line a document gives on its own, in plain mode. *)
Definition line_of (doc : Doc) : string :=
  default "" (snd <$> process_doc stem spacy_lemmatizer args (empty_tables, "") doc).

End Rendering.

(** The plain marking of a span (line 137) or its text (line 140). *)
Definition plain_text (mark : string) (sp : Span) : string :=
  if accepted sp then (mark_spaces mark (text sp) +:+ mark) +:+ " "
  else text sp +:+ " ".

Definition render (mark : string) (pc : Piece) : string :=
  match pc with
  | Free token => verbatim token
  | Phrase sp _ => plain_text mark sp
  end.

(** *** What every run keeps *)

(** The tables of a grouping run, whatever the corpus: they are well
    formed, a phrase is in the group of its key, a group lists no variant
    twice and is not empty, and the phrases with a key are the phrases with
    a count, which is at least one. *)
Record sound (tb : Tables) : Prop := {
  snd_wf : well_formed tb;
  snd_member : ∀ v k,
    np2id tb !! v = Some k → ∃ group, id2group tb !! k = Some group ∧ v ∈ group;
  snd_nodup : ∀ k group, id2group tb !! k = Some group → NoDup group ∧ group ≠ [];
  snd_known : ∀ k group v,
    id2group tb !! k = Some group → v ∈ group → is_Some (np2id tb !! v);
  snd_counted : ∀ v, is_Some (np2id tb !! v) ↔ is_Some (np2count tb !! v);
  snd_positive : ∀ v c, np2count tb !! v = Some c → (1 <= c)%Z
}.

(** Nothing is taken back: the output is continued, a group is continued,
    a key keeps a representative, a phrase keeps a key, and no count
    goes down. *)
Record extends (a b : Tables * string) : Prop := {
  ext_written : ∃ more, b.2 = a.2 +:+ more;
  ext_group : ∀ k group,
    id2group a.1 !! k = Some group →
    ∃ more, id2group b.1 !! k = Some (group ++ more);
  ext_rep : ∀ k, is_Some (id2rep a.1 !! k) → is_Some (id2rep b.1 !! k);
  ext_id : ∀ v, is_Some (np2id a.1 !! v) → is_Some (np2id b.1 !! v);
  ext_count : ∀ v, (count_of a.1 v <= count_of b.1 v)%Z
}.

(** Every character [a] of the string gives way to [new]. *)
Fixpoint subst_char (a : ascii) (new s : string) : string :=
  match s with
  | EmptyString => EmptyString
  | String c s' =>
      (if Ascii.eqb c a then new else String c EmptyString)
        +:+ subst_char a new s'
  end.

(** *** Vocabularies *)

(** The words, numbered from [lo] on in the order given. *)
Fixpoint numbered (lo : Z) (ws : list string) : list (string * Z) :=
  match ws with
  | [] => []
  | w :: ws' => (w, lo) :: numbered (lo + 1) ws'
  end.

Definition swap {A B} (ab : A * B) : B * A := (ab.2, ab.1).

(** A vocabulary made by [Vocabulary(start)], [add] and
    [add_vocab_offset]; [lo] is where its ids start. *)
Inductive built : Z → Vocab.Vocabulary → Prop :=
  | built_init start : built start (Vocab.init start)
  | built_add lo v word : built lo v → built lo (Vocab.add word v).1
  | built_offset lo v offset :
      built lo v → built (lo + offset) (Vocab.add_vocab_offset offset v).

(** *** Sample inputs *)

Definition tok (s : string) (i : Z) : Token := {| token_text := s; idx := i |}.

Definition chunk (s lemma : string) (a b : Z) : Span :=
  {| start_char := a; end_char := b; text := s; lemma_ := lemma |}.

Definition plain : Args := {| mark_char := "_"; grouping := false |}.
Definition grouped : Args := {| mark_char := "_"; grouping := true |}.

(** A stand-in stemmer and lemmatizer, to run the program on samples. *)
Definition keep (s : string) : string := s.
Definition one_lemma (t pos : string) : list string := [t].

(** "The climate change is real" *)
Definition climate : Doc :=
  {| tokens := [tok "The" 0; tok "climate" 4; tok "change" 12; tok "is" 19;
                tok "real" 22];
     noun_chunks := [chunk "climate change" "climate change" 4 18] |}.

(** "the  cat", with two spaces: the second one is a token of its own. *)
Definition the_cat : Span := chunk "the  cat" "the  cat" 0 8.

(** "x big cat", with a first span that holds no token. *)
Definition big_cat : Doc :=
  {| tokens := [tok "x" 0; tok "big" 2; tok "cat" 6];
     noun_chunks := [chunk " " " " 1 2; chunk "big cat" "big cat" 2 9] |}.

Definition big_cat_only : Doc :=
  {| tokens := tokens big_cat; noun_chunks := [chunk "big cat" "big cat" 2 9] |}.

(** A document made of one noun chunk. *)
Definition phrase (s lemma : string) : Doc :=
  {| tokens := [tok s 0]; noun_chunks := [chunk s lemma 0 (len s)] |}.

(** Two phrases with one key, met in the order A, B, B, A. *)
Definition tie_corpus : list Doc :=
  [phrase "a b" "x y"; phrase "c d" "x y"; phrase "c d" "x y";
   phrase "a b" "x y"].

(** A phrase counted twice under one key, then met under another. *)
Definition rekeyed_corpus : list Doc :=
  [phrase "a b" "x"; phrase "a b" "x"; phrase "c d" "y"; phrase "a b" "y"].

(** The tables after the first three documents of [rekeyed_corpus]. *)
Definition rekeyed_tables : Tables :=
  {| np2id := <["a b" := "x"]> (<["c d" := "y"]> ∅);
     id2group := <["x" := ["a b"]]> (<["y" := ["c d"]]> ∅);
     id2rep := <["x" := "a b"]> (<["y" := "c d"]> ∅);
     np2count := <["a b" := 2%Z]> (<["c d" := 1%Z]> ∅) |}.

(** The tables after [tie_corpus]. *)
Definition tie_tables : Tables :=
  {| np2id := <["a b" := "x y"]> (<["c d" := "x y"]> ∅);
     id2group := <["x y" := ["a b"; "c d"]]> ∅;
     id2rep := <["x y" := "c d"]> ∅;
     np2count := <["a b" := 2%Z]> (<["c d" := 2%Z]> ∅) |}.

(** "NY" five times and "New York" three times, in two sentences. *)
Definition ny (a : Z) : Span := chunk "NY" "New York" a (a + 2).
Definition new_york (a : Z) : Span := chunk "New York" "New York" a (a + 8).

Definition ny_first : Doc :=
  {| tokens := [tok "NY" 0; tok "New" 3; tok "York" 7; tok "NY" 12;
                tok "is" 15; tok "NY" 18];
     noun_chunks := [ny 0; new_york 3; ny 12; ny 18] |}.

Definition ny_second : Doc :=
  {| tokens := [tok "New" 0; tok "York" 4; tok "NY" 9; tok "New" 12;
                tok "York" 16; tok "NY" 21];
     noun_chunks := [new_york 0; ny 9; new_york 12; ny 21] |}.

(** A span whose key holds the marker. *)
Definition e_mail : Span := chunk "e_mail box" "e_mail box" 0 10.

(** A loop state: no tables, nothing written, the given cursor. *)
Definition at_span (sp : option Span) (rest : list Span) : Loop :=
  {| tables := empty_tables; written := ""; span := sp; spans := rest;
     spanWritten := false |}.

(** A no-break space (U+00A0), and "é" (U+00E9) followed by "S". *)
Definition nbsp : string := String (ascii_of_nat 160) EmptyString.
Definition e_acute_S : string := String (ascii_of_nat 233) "S".

(** "a", a no-break space and "b", without noun chunk. *)
Definition a_nbsp_b : Doc :=
  {| tokens := [tok "a" 0; tok nbsp 2; tok "b" 3]; noun_chunks := [] |}.

(** "a", a no-break space and "big cat", cut in pieces. *)
Definition nbsp_pieces : list Piece :=
  [Free (tok "a" 0); Free (tok nbsp 1);
   Phrase (chunk "big cat" "big cat" 2 9) [tok "big" 2; tok "cat" 6]].

(** A lemmatizer that knows one plural. *)
Definition singular (t : string) : string :=
  if String.eqb t "mice" then "mouse" else t.

(** A vocabulary of two words, numbered from 5. *)
Definition two_words : Vocab.Vocabulary :=
  (Vocab.add "b" (Vocab.add "a" (Vocab.init 5)).1).1.

(** "The climate change is real", cut in pieces. *)
Definition climate_pieces : list Piece :=
  [Free (tok "The" 0);
   Phrase (chunk "climate change" "climate change" 4 18)
     [tok "climate" 4; tok "change" 12];
   Free (tok "is" 19); Free (tok "real" 22)].

End Claims.

(** * Properties *)

Import PyStr Text PrepareData Claims.

(** ** String primitives *)

Section StringFacts.

Lemma len_nonneg s : (0 <= len s)%Z.
Proof. unfold len. lia. Qed.

Lemma app_nil_l s : "" +:+ s = s.
Proof. reflexivity. Qed.

Lemma app_cons c s1 s2 : String c s1 +:+ s2 = String c (s1 +:+ s2).
Proof. reflexivity. Qed.

Lemma length_app_s s1 s2 :
  String.length (s1 +:+ s2) = (String.length s1 + String.length s2)%nat.
Proof.
  induction s1 as [|c s1 IH]; [done |].
  rewrite app_cons. simpl. by rewrite IH.
Qed.

Lemma len_app s1 s2 : len (s1 +:+ s2) = (len s1 + len s2)%Z.
Proof. unfold len. rewrite length_app_s. lia. Qed.

Lemma len_0 s : len s = 0%Z ↔ s = "".
Proof. unfold len. destruct s; simpl; split; intros; (done || lia). Qed.

Lemma app_empty_r s : s +:+ "" = s.
Proof. induction s as [|c s IH]; [done |]. by rewrite app_cons, IH. Qed.

Lemma app_assoc_s s1 s2 s3 : (s1 +:+ s2) +:+ s3 = s1 +:+ s2 +:+ s3.
Proof. induction s1 as [|c s1 IH]; [done |]. by rewrite !app_cons, IH. Qed.

Lemma lstrip_all_space s : all_space s = true → lstrip s = "".
Proof.
  unfold all_space. induction s as [|c s IH]; simpl; [done |].
  intros [Hc Hs]%andb_prop. rewrite Hc. auto.
Qed.

Lemma lstrip_not_all_space s :
  all_space s = false → ∃ c r, lstrip s = String c r ∧ isspace_c c = false.
Proof.
  unfold all_space. induction s as [|c s IH]; simpl; [done |].
  destruct (isspace_c c) eqn:Hc; simpl; eauto.
Qed.

Lemma rstrip_head c r : isspace_c c = false → rstrip (String c r) ≠ "".
Proof. simpl. intros ->. by destruct (rstrip r). Qed.

(** [len(s.strip()) > 0] says that [s] is not purely whitespace. *)
Lemma strip_positive s : (0 <? len (strip s))%Z = negb (all_space s).
Proof.
  unfold strip. destruct (all_space s) eqn:Hs; simpl.
  - by rewrite lstrip_all_space.
  - destruct (lstrip_not_all_space s Hs) as (c & r & -> & Hc).
    apply Z.ltb_lt. pose proof (len_nonneg (rstrip (String c r))).
    pose proof (rstrip_head c r Hc) as Hne. rewrite <-len_0 in Hne. lia.
Qed.

Lemma eqb_refl_s s : String.eqb s s = true.
Proof. by apply String.eqb_eq. Qed.

Lemma endswith_unfold s suffix :
  endswith s suffix =
  if String.eqb s suffix then true
  else match s with
       | EmptyString => false
       | String _ s' => endswith s' suffix
       end.
Proof. by destruct s. Qed.

(** [endswith] holds exactly of the strings that have the suffix. *)
Lemma endswith_spec s suffix :
  endswith s suffix = true ↔ ∃ pre, s = pre +:+ suffix.
Proof.
  induction s as [|c s IH]; rewrite endswith_unfold;
    match goal with
    | |- context [String.eqb ?a ?b] =>
        destruct (String.eqb_spec a b) as [<- | Hne]
    end;
    try (split; [by exists "" | done]).
  - split; [done |]. intros [[|??] H]; [| done].
    by rewrite app_nil_l in H.
  - rewrite IH. split.
    + intros [pre ->]. by exists (String c pre).
    + intros [[|c' pre] H].
      * by rewrite app_nil_l in H.
      * rewrite app_cons in H. injection H as -> ->. by exists pre.
Qed.

Lemma split_at_cons q s : ∃ w ws, split_at q s = w :: ws.
Proof.
  induction s as [|c s (w & ws & IH)]; simpl; [by eauto |].
  destruct (q c); [by eauto |]. rewrite IH. eauto.
Qed.

(** A string without separator is its own single piece. *)
Lemma split_at_none q s :
  forallb (fun c => negb (q c)) (chars s) = true → split_at q s = [s].
Proof.
  induction s as [|c s IH]; simpl; [done |].
  intros [Hc Hs]%andb_prop. apply negb_true_iff in Hc. rewrite Hc.
  unfold chars in IH. by rewrite (IH Hs).
Qed.

(** Joining the pieces with the separator gives the string back. *)
Lemma join_cons sep w ws :
  join sep (w :: ws) = match ws with [] => w | _ => w +:+ sep +:+ join sep ws end.
Proof. reflexivity. Qed.

Lemma join_split_at (c : ascii) s :
  join (String c "") (split_at (Ascii.eqb c) s) = s.
Proof.
  induction s as [|a s IH]; [done |]. simpl split_at.
  destruct (split_at_cons (Ascii.eqb c) s) as (w & ws & E).
  rewrite E in IH |- *. destruct (Ascii.eqb c a) eqn:Ha.
  - apply Ascii.eqb_eq in Ha as <-. rewrite join_cons, IH. done.
  - rewrite join_cons in IH |- *. destruct ws; [by rewrite IH |].
    rewrite app_cons. f_equal. exact IH.
Qed.

(** A single word, in the sense of [split]. *)
Lemma split_single_word s :
  s ≠ "" → forallb (fun c => negb (isspace_c c)) (chars s) = true →
  split s = [s].
Proof.
  intros Hne Hs. unfold split. rewrite split_at_none by done.
  simpl. by destruct s.
Qed.

End StringFacts.

(** ** The normalizer *)

Section NormalizerFacts.
Variable stem : string -> string.
Variable spacy_lemmatizer : string -> string -> list string.

Local Abbreviation spacy_normalizer := (Text.spacy_normalizer stem spacy_lemmatizer).

Lemma needs_normalizing_false text :
  needs_normalizing text = false ↔
  isupper text = true ∧ endswith text "S" = true ∧ length (split text) = 1%nat.
Proof.
  unfold needs_normalizing.
  rewrite !orb_false_iff, !negb_false_iff, Nat.eqb_eq. tauto.
Qed.

(** C6: an upper-case single word ending in [S] is returned as it is,
    whatever the lemma argument (absent, empty or not): nothing is split,
    lemmatized or stemmed. *)
Theorem C6_upper_plural_unchanged (text : string) (lemma : option string) :
  isupper text = true →
  (∃ pre, text = pre +:+ "S") →
  length (split text) = 1%nat →
  spacy_normalizer text lemma = Some text.
Proof.
  intros Hup Hs%endswith_spec Hone. unfold Text.spacy_normalizer.
  by rewrite (proj2 (needs_normalizing_false text)).
Qed.


End NormalizerFacts.

(** ** The token loop *)

Section LoopFacts.
Variable stem : string -> string.
Variable spacy_lemmatizer : string -> string -> list string.
Variable args : Args.

Local Abbreviation process_token := (PrepareData.process_token stem spacy_lemmatizer args).
Local Abbreviation process_tokens := (PrepareData.process_tokens stem spacy_lemmatizer args).
Local Abbreviation mark_span := (PrepareData.mark_span stem spacy_lemmatizer args).
Local Abbreviation write_span := (PrepareData.write_span stem spacy_lemmatizer args).

Lemma write_empty st : write "" st = st.
Proof. destruct st. unfold write. simpl. by rewrite app_empty_r. Qed.

Lemma write_token_verbatim token st :
  write_token token st = write (verbatim token) st.
Proof.
  unfold write_token, verbatim. rewrite strip_positive.
  destruct (all_space (token_text token)); simpl; [by rewrite write_empty | done].
Qed.

Lemma range_outside_outside token sp :
  token_text token ≠ "" → range_outside token sp → outside token sp = true.
Proof.
  intros Hne Hout. pose proof (len_nonneg (token_text token)).
  assert (len (token_text token) ≠ 0%Z) by (by rewrite len_0).
  unfold outside. apply orb_true_iff. rewrite Z.ltb_lt, Z.leb_le.
  unfold range_outside in Hout. lia.
Qed.

(** C2: with no active span, or with the token's range outside the
    active span's, the token is written as it is, followed by one space,
    unless it is whitespace only, and then nothing is written; the
    cursor and the tables are left as they were. *)
Theorem C2_token_outside_verbatim (st : Loop) (token : Token) :
  token_text token ≠ "" →
  (span st = None ∨ ∃ sp, span st = Some sp ∧ range_outside token sp) →
  process_token st token
  = Some {| tables := tables st;
            written := if all_space (token_text token) then written st
                       else written st +:+ (token_text token +:+ " ");
            span := span st; spans := spans st;
            spanWritten := spanWritten st |}.
Proof.
  intros Hne Hcase. unfold PrepareData.process_token.
  assert (write_token token st
          = {| tables := tables st;
               written := if all_space (token_text token) then written st
                          else written st +:+ (token_text token +:+ " ");
               span := span st; spans := spans st;
               spanWritten := spanWritten st |}) as <-.
  { unfold write_token. rewrite strip_positive.
    destruct (all_space _); simpl; [by destruct st | done]. }
  destruct Hcase as [Hnone | (sp & Hsp & Hout)]; rewrite ?Hnone; [done |].
  by rewrite Hsp, range_outside_outside.
Qed.

End LoopFacts.

(** ** Marking a span *)

Section MarkFacts.
Variable stem : string -> string.
Variable spacy_lemmatizer : string -> string -> list string.
Variable args : Args.

Local Abbreviation mark_span := (PrepareData.mark_span stem spacy_lemmatizer args).
Local Abbreviation group_np := (PrepareData.group_np stem spacy_lemmatizer args).
Local Abbreviation key_of := (PrepareData.key_of stem spacy_lemmatizer args).

Lemma prefix_empty s : String.prefix "" s = true.
Proof. by destruct s. Qed.

(** [s.replace(' ', mark)] works character by character. *)
Lemma replace_space mark s : replace " " mark s = mark_spaces mark s.
Proof.
  unfold replace. induction s as [|c s IH]; [done |].
  cbn [replace_from mark_spaces String.prefix String.length Nat.sub].
  destruct (ascii_dec " " c) as [<- | Hne].
  - by rewrite prefix_empty, IH.
  - rewrite IH. destruct (Ascii.eqb_spec c " ") as [-> | _]; done.
Qed.




Lemma group_update_np2count np norm tb tb' :
  group_update np norm tb = Some tb' → np2count tb' = np2count tb.
Proof.
  unfold group_update. intros H.
  repeat (case_match; simplify_option_eq); done.
Qed.

Lemma group_np_inv np lemma tb out tb' :
  group_np np lemma tb = Some (out, tb') →
  ∃ norm, key_of np lemma = Some norm
    ∧ group_update np norm (with_count (count_np np (np2count tb)) tb) = Some tb'
    ∧ out = replace " " (mark_char args) norm +:+ mark_char args.
Proof.
  unfold PrepareData.group_np. intros H.
  destruct (key_of np lemma) as [norm|]; [| done]. simpl in H.
  destruct (group_update _ _ _) as [tb2|] eqn:E; [| done]. simpl in H.
  injection H as <- <-. eauto.
Qed.


End MarkFacts.

(** ** The span cursor *)

Section CursorFacts.
Variable stem : string -> string.
Variable spacy_lemmatizer : string -> string -> list string.
Variable args : Args.

Local Abbreviation process_token := (PrepareData.process_token stem spacy_lemmatizer args).
Local Abbreviation process_tokens := (PrepareData.process_tokens stem spacy_lemmatizer args).
Local Abbreviation write_span := (PrepareData.write_span stem spacy_lemmatizer args).

Lemma write_write a b st : write b (write a st) = write (a +:+ b) st.
Proof. unfold write. simpl. by rewrite app_assoc_s. Qed.

Lemma pop0_moves (l : list Span) sp : (Some sp, l) ≠ pop0 l.
Proof.
  destruct l as [|s r]; simpl; [done |]. intros E.
  injection E as _ E. apply (f_equal length) in E. simpl in E. lia.
Qed.

Lemma write_span_cursor sp st st1 :
  write_span sp st = Some st1 → span st1 = span st ∧ spans st1 = spans st.
Proof.
  unfold PrepareData.write_span. destruct (spanWritten st).
  - by intros [= <-].
  - destruct (PrepareData.mark_span _ _ _ _ _) as [[s tb]|]; [| done].
    by intros [= <-].
Qed.

Lemma process_token_outside st sp token :
  span st = Some sp → outside token sp = true →
  process_token st token = Some (write (verbatim token) st).
Proof.
  intros Hsp Hout. unfold PrepareData.process_token.
  by rewrite Hsp, Hout, write_token_verbatim.
Qed.

(** While no token starts inside the active span, the loop only copies
    tokens: the span is not written and stays the active one. *)
Lemma process_tokens_stuck toks : ∀ st sp,
  span st = Some sp → Forall (fun token => outside token sp = true) toks →
  process_tokens st toks = Some (write (verbatim_all toks) st).
Proof.
  induction toks as [|token toks IH]; intros st sp Hsp Hall.
  - simpl. by rewrite write_empty.
  - apply Forall_cons in Hall as [Hout Hall].
    cbn [PrepareData.process_tokens]. rewrite (process_token_outside st sp) by done.
    simpl. rewrite (IH _ sp) by done. by rewrite write_write.
Qed.

(** C8: a span inside which no token of the line starts is never written,
    and the cursor never leaves it: every token is copied, the tables are
    left alone and the later spans of the line never become active.  On
    one token, the cursor advances exactly when the token starts inside the
    active span and ends where the span ends; the new span starts as not
    yet written, and otherwise the active span and the pending ones stay. *)
Theorem C8_cursor_advance (st : Loop) (sp : Span) :
  span st = Some sp →
  (∀ toks, Forall (fun token => outside token sp = true) toks →
     process_tokens st toks = Some (write (verbatim_all toks) st))
  ∧ ∀ token st', process_token st token = Some st' →
      (advanced st st' ↔
         outside token sp = false
         ∧ (idx token + len (token_text token))%Z = end_char sp)
      ∧ (advanced st st' → spanWritten st' = false)
      ∧ (¬ advanced st st' → span st' = Some sp ∧ spans st' = spans st).
Proof.
  intros Hsp. split; [intros toks; by apply process_tokens_stuck |].
  intros token st' H. unfold PrepareData.process_token in H. rewrite Hsp in H.
  unfold advanced. destruct (outside token sp) eqn:Hout.
  - injection H as <-. rewrite write_token_verbatim. simpl. rewrite Hsp.
    pose proof (pop0_moves (spans st) sp). intuition congruence.
  - destruct (write_span sp st) as [st1|] eqn:Hw; [| done]. simpl in H.
    injection H as <-. apply write_span_cursor in Hw as [Hs1 Hr1].
    unfold advance. destruct (Z.eqb_spec (idx token + len (token_text token)) (end_char sp)) as [E | E].
    + rewrite Hr1. destruct (pop0 (spans st)) as [s rest]. simpl. tauto.
    + rewrite Hs1, Hr1, Hsp. pose proof (pop0_moves (spans st) sp).
      intuition congruence.
Qed.

End CursorFacts.

(** ** What the loop writes for the active span *)

Section EmissionFacts.
Variable stem : string -> string.
Variable spacy_lemmatizer : string -> string -> list string.
Variable args : Args.

Local Abbreviation mark_span := (PrepareData.mark_span stem spacy_lemmatizer args).
Local Abbreviation key_of := (PrepareData.key_of stem spacy_lemmatizer args).
Local Abbreviation process_token := (PrepareData.process_token stem spacy_lemmatizer args).
Local Abbreviation process_tokens := (PrepareData.process_tokens stem spacy_lemmatizer args).




End EmissionFacts.

(** ** Plain marking *)

Section PlainFacts.
Variable stem : string -> string.
Variable spacy_lemmatizer : string -> string -> list string.

Local Abbreviation mark_span := (PrepareData.mark_span stem spacy_lemmatizer).
Local Abbreviation process_corpus := (PrepareData.process_corpus stem spacy_lemmatizer).

(** C3: in plain mode an accepted span is written as its text with the
    marker for each space character, one more marker and a space; the five
    tokens of "The climate change is real" with the span "climate change"
    give the line "The climate_change_ is real ", every token being followed
    by a space, and the newline. *)
Theorem C3_plain_marks_each_space :
  (∀ args sp tb,
     grouping args = false → accepted sp = true →
     mark_span args sp tb
     = Some ((mark_spaces (mark_char args) (text sp) +:+ mark_char args) +:+ " ", tb))
  ∧ process_corpus plain [climate]
    = Some (empty_tables, "The climate_change_ is real " +:+ nl).
Proof.
  split; [| by vm_compute].
  intros args sp tb Hg Hacc. unfold PrepareData.mark_span.
  by rewrite Hacc, Hg, replace_space.
Qed.

End PlainFacts.

(** ** The grouping tables *)

Section UpdateFacts.

Lemma well_formed_empty : well_formed empty_tables.
Proof.
  split; simpl.
  - intros k. rewrite !lookup_empty. split; intros []; done.
  - intros k r g H. by rewrite lookup_empty in H.
  - intros k g v H. by rewrite lookup_empty in H.
Qed.

(** The three ways through lines 122-132. *)
Lemma group_update_new np norm tb :
  id2group tb !! norm = None →
  group_update np norm tb
  = Some {| np2id := <[np := norm]> (np2id tb);
            id2group := <[norm := [np]]> (id2group tb);
            id2rep := <[norm := np]> (id2rep tb);
            np2count := np2count tb |}.
Proof.
  intros Hg. unfold group_update. rewrite Hg.
  destruct (id2rep tb !! norm); [done |]. by rewrite insert_insert_eq.
Qed.

Lemma group_update_append np norm tb group rep :
  id2group tb !! norm = Some group → np ∉ group →
  id2rep tb !! norm = Some rep →
  group_update np norm tb
  = Some {| np2id := <[np := norm]> (np2id tb);
            id2group := <[norm := group ++ [np]]> (id2group tb);
            id2rep := id2rep tb;
            np2count := np2count tb |}.
Proof.
  intros Hg Hnp Hr. unfold group_update. rewrite Hg, Hr.
  by rewrite decide_False.
Qed.

Lemma group_update_seen np norm tb group rep c crep :
  id2group tb !! norm = Some group → np ∈ group →
  id2rep tb !! norm = Some rep →
  np2count tb !! np = Some c → np2count tb !! rep = Some crep →
  group_update np norm tb
  = Some {| np2id := <[np := norm]> (np2id tb);
            id2group := id2group tb;
            id2rep := if (crep <? c)%Z then <[norm := np]> (id2rep tb)
                      else id2rep tb;
            np2count := np2count tb |}.
Proof.
  intros Hg Hnp Hr Hc Hcr. unfold group_update. rewrite Hg, Hr.
  rewrite decide_True by done. rewrite Hc. simpl. rewrite Hr. simpl.
  by rewrite Hcr.
Qed.

Lemma count_np_lookup np c :
  count_np np c !! np = Some (default 0 (c !! np) + 1)%Z.
Proof.
  unfold count_np. destruct (c !! np); by rewrite lookup_insert_eq.
Qed.

Lemma count_np_lookup_ne np v c : v ≠ np → count_np np c !! v = c !! v.
Proof.
  intros Hne. unfold count_np. destruct (c !! np); by rewrite lookup_insert_ne.
Qed.

Lemma count_np_is_Some np v c : is_Some (c !! v) → is_Some (count_np np c !! v).
Proof.
  intros H. destruct (decide (v = np)) as [-> | Hne].
  - rewrite count_np_lookup. eauto.
  - by rewrite count_np_lookup_ne.
Qed.

Lemma well_formed_count np tb :
  well_formed tb → well_formed (with_count (count_np np (np2count tb)) tb).
Proof.
  intros [H1 H2 H3]. split; simpl; [done | done |].
  intros k g v Hg Hv. apply count_np_is_Some. eauto.
Qed.

(** In well-formed tables where [np] is counted, the update of lines
    122-132 raises no [KeyError] and leaves the tables well formed. *)
Lemma group_update_well_formed np norm tb :
  well_formed tb → is_Some (np2count tb !! np) →
  ∃ tb', group_update np norm tb = Some tb' ∧ well_formed tb'
    ∧ np2id tb' !! np = Some norm
    ∧ (∃ group, id2group tb' !! norm = Some group ∧ np ∈ group)
    ∧ is_Some (id2rep tb' !! norm).
Proof.
  intros [H1 H2 H3] [c Hc].
  destruct (id2group tb !! norm) as [group|] eqn:Hg.
  - destruct (proj1 (H1 norm)) as [rep Hr]; [by rewrite Hg |].
    destruct (decide (np ∈ group)) as [Hin | Hnin].
    + destruct (H3 norm group rep Hg (H2 _ _ _ Hr Hg)) as [crep Hcr].
      eexists. split; [by eapply group_update_seen |].
      split; [split |]; simpl.
      * intros k. rewrite H1. destruct (crep <? c)%Z; [| done].
        destruct (decide (k = norm)) as [-> | Hne].
        -- rewrite lookup_insert_eq, Hr. split; eauto.
        -- by rewrite lookup_insert_ne.
      * intros k r g Hkr Hkg. destruct (crep <? c)%Z; [| by eauto].
        destruct (decide (k = norm)) as [-> | Hne].
        -- rewrite lookup_insert_eq in Hkr. injection Hkr as <-. congruence.
        -- rewrite lookup_insert_ne in Hkr by done. eauto.
      * done.
      * rewrite lookup_insert_eq. split; [done |]. split; [by eauto |].
        destruct (crep <? c)%Z; [by rewrite lookup_insert_eq | by rewrite Hr].
    + eexists. split; [by eapply group_update_append |].
      split; [split |]; simpl.
      * intros k. rewrite <-H1. destruct (decide (k = norm)) as [-> | Hne].
        -- rewrite lookup_insert_eq, Hg. split; eauto.
        -- by rewrite lookup_insert_ne.
      * intros k r g Hkr Hkg. destruct (decide (k = norm)) as [-> | Hne].
        -- rewrite lookup_insert_eq in Hkg. injection Hkg as <-.
           apply elem_of_app. left. eauto.
        -- rewrite lookup_insert_ne in Hkg by done. eauto.
      * intros k g v Hkg Hv. destruct (decide (k = norm)) as [-> | Hne].
        -- rewrite lookup_insert_eq in Hkg. injection Hkg as <-.
           apply elem_of_app in Hv as [Hv | Hv%list_elem_of_singleton]; [by eauto |].
           subst. eauto.
        -- rewrite lookup_insert_ne in Hkg by done. eauto.
      * rewrite !lookup_insert_eq. split; [done |]. split; [| by rewrite Hr].
        eexists. split; [done |]. apply elem_of_app. right. by apply list_elem_of_singleton.
  - eexists. split; [by eapply group_update_new |].
    split; [split |]; simpl.
    + intros k. destruct (decide (k = norm)) as [-> | Hne].
      * rewrite !lookup_insert_eq. split; eauto.
      * by rewrite !lookup_insert_ne.
    + intros k r g Hkr Hkg. destruct (decide (k = norm)) as [-> | Hne].
      * rewrite lookup_insert_eq in Hkr. rewrite lookup_insert_eq in Hkg.
        injection Hkr as <-.
        injection Hkg as <-. by apply list_elem_of_singleton.
      * rewrite lookup_insert_ne in Hkr by done.
        rewrite lookup_insert_ne in Hkg by done. eauto.
    + intros k g v Hkg Hv. destruct (decide (k = norm)) as [-> | Hne].
      * rewrite lookup_insert_eq in Hkg. injection Hkg as <-.
        apply list_elem_of_singleton in Hv as ->. eauto.
      * rewrite lookup_insert_ne in Hkg by done. eauto.
    + rewrite !lookup_insert_eq. split; [done |]. split; [| by eauto].
      eexists. split; [done |]. by apply list_elem_of_singleton.
Qed.

End UpdateFacts.

(** ** The marker inside a key *)

Section MarkerFacts.

Lemma contains_unfold sub s :
  contains sub s =
  if String.prefix sub s then true
  else match s with
       | EmptyString => false
       | String _ s' => contains sub s'
       end.
Proof. by destruct s. Qed.

Lemma prefix_cons a u c s :
  String.prefix (String a u) (String c s)
  = if ascii_dec a c then String.prefix u s else false.
Proof. reflexivity. Qed.

Lemma no_space_cons a u :
  no_space (String a u) = true ↔ a ≠ " "%char ∧ no_space u = true.
Proof.
  unfold no_space. simpl. rewrite andb_true_iff, negb_true_iff.
  by rewrite Ascii.eqb_neq.
Qed.

(** Up to the first replacement, the result of [replace] is the string
    itself. *)
Lemma prefix_replace_from old s : ∀ u,
  no_space u = true →
  String.prefix u (replace_from old " " 0 s) = true → String.prefix u s = true.
Proof.
  induction s as [|c s IH]; intros u Hu; [done |].
  cbn [replace_from]. destruct u as [|a u]; [done |].
  apply no_space_cons in Hu as [Ha Hu].
  destruct (String.prefix old (String c s)).
  - rewrite app_cons, app_nil_l, !prefix_cons. by destruct (ascii_dec a " ").
  - rewrite !prefix_cons. destruct (ascii_dec a c); [| done]. by apply IH.
Qed.

(** After [norm.replace(mark, ' ')] no occurrence of a marker without
    space is left. *)
Lemma replace_from_clean old s : ∀ k,
  old ≠ "" → no_space old = true →
  contains old (replace_from old " " k s) = false.
Proof.
  induction s as [|c s IH]; intros k Hne Hold.
  - simpl. by destruct old.
  - destruct k as [|k]; [| by apply IH].
    pose proof (prefix_replace_from old (String c s) old Hold) as Hpre.
    cbn [replace_from] in Hpre |- *.
    destruct (String.prefix old (String c s)) eqn:E.
    + rewrite app_cons, app_nil_l, contains_unfold.
      destruct old as [|a old']; [done |].
      apply no_space_cons in Hold as Hold'. destruct Hold' as [Ha _].
      rewrite prefix_cons. destruct (ascii_dec a " "); [done |]. by apply IH.
    + rewrite contains_unfold.
      destruct (String.prefix old (String c (replace_from old " " 0 s))) eqn:E2;
        [by discriminate (Hpre eq_refl) | by apply IH].
Qed.

Lemma replace_clean old s :
  old ≠ "" → no_space old = true → contains old (replace old " " s) = false.
Proof.
  intros Hne Hold. unfold replace. destruct old; [done |].
  by apply replace_from_clean.
Qed.

End MarkerFacts.

Section KeyFacts.
Variable stem : string -> string.
Variable spacy_lemmatizer : string -> string -> list string.
Variable args : Args.

Local Abbreviation spacy_normalizer := (Text.spacy_normalizer stem spacy_lemmatizer).
Local Abbreviation mark_span := (PrepareData.mark_span stem spacy_lemmatizer args).
Local Abbreviation group_np := (PrepareData.group_np stem spacy_lemmatizer args).
Local Abbreviation key_of := (PrepareData.key_of stem spacy_lemmatizer args).

(** In well-formed tables the grouping branch fails only if the
    normalizer does. *)
Lemma group_np_well_formed np lemma norm tb :
  well_formed tb → key_of np lemma = Some norm →
  ∃ tb', group_np np lemma tb
         = Some (replace " " (mark_char args) norm +:+ mark_char args, tb')
    ∧ well_formed tb'
    ∧ np2id tb' !! np = Some norm
    ∧ (∃ group, id2group tb' !! norm = Some group ∧ np ∈ group)
    ∧ is_Some (id2rep tb' !! norm).
Proof.
  intros Hwf Hkey. unfold PrepareData.group_np. rewrite Hkey. simpl.
  destruct (group_update_well_formed np norm
              (with_count (count_np np (np2count tb)) tb))
    as (tb' & -> & Hrest).
  - by apply well_formed_count.
  - simpl. rewrite count_np_lookup. eauto.
  - simpl. eauto.
Qed.

(** C7: when the normalized key of an accepted span holds the marker, the
    key that is stored in [np2id], [id2group] and [id2rep] and that is
    encoded in the output is [norm.replace(mark, ' ')]; no exception is
    raised, the span is written like any other and the tables stay well
    formed.  If the marker has no space in it, the stored key holds no
    marker any more. *)
Theorem C7_marker_replaced_in_key (sp : Span) (raw : string) (tb : Tables) :
  grouping args = true → accepted sp = true → well_formed tb →
  spacy_normalizer (text sp) (Some (lemma_ sp)) = Some raw →
  contains (mark_char args) raw = true →
  let key := replace (mark_char args) " " raw in
  ∃ tb',
    mark_span sp tb
    = Some ((replace " " (mark_char args) key +:+ mark_char args) +:+ " ", tb')
    ∧ well_formed tb'
    ∧ np2id tb' !! text sp = Some key
    ∧ (∃ group, id2group tb' !! key = Some group ∧ text sp ∈ group)
    ∧ is_Some (id2rep tb' !! key)
    ∧ (mark_char args ≠ "" → no_space (mark_char args) = true →
       contains (mark_char args) key = false).
Proof.
  intros Hg Hacc Hwf Hraw Hin key.
  assert (key_of (text sp) (lemma_ sp) = Some key) as Hkey.
  { unfold PrepareData.key_of. rewrite Hraw. simpl. unfold sanitize.
    by rewrite Hin. }
  destruct (group_np_well_formed _ _ _ tb Hwf Hkey)
    as (tb' & Hnp & Hwf' & Hid & Hgroup & Hrep).
  exists tb'. unfold PrepareData.mark_span. rewrite Hacc, Hg, Hnp. simpl.
  repeat (split; [done |]). intros Hne Hsp. by apply replace_clean.
Qed.

End KeyFacts.

(** ** One occurrence in the grouping branch *)

Section OccurrenceFacts.
Variable stem : string -> string.
Variable spacy_lemmatizer : string -> string -> list string.
Variable args : Args.

Local Abbreviation group_np := (PrepareData.group_np stem spacy_lemmatizer args).
Local Abbreviation key_of := (PrepareData.key_of stem spacy_lemmatizer args).

Lemma count_of_count_np np tb tb' v :
  np2count tb' = count_np np (np2count tb) →
  count_of tb' v = (count_of tb v + if decide (v = np) then 1 else 0)%Z.
Proof.
  intros E. unfold count_of. rewrite E. case_decide as Hv.
  - subst. by rewrite count_np_lookup.
  - rewrite count_np_lookup_ne by done. lia.
Qed.

(** What one occurrence of [np] with key [norm] does to well-formed
    tables: the key is new, or the variant is new to the key's group, or
    the variant is known and its count is compared with the
    representative's. *)
Lemma group_np_cases np lemma norm tb :
  well_formed tb → key_of np lemma = Some norm →
  ∃ tb',
    group_np np lemma tb
    = Some (replace " " (mark_char args) norm +:+ mark_char args, tb')
    ∧ np2id tb' = <[np := norm]> (np2id tb)
    ∧ np2count tb' = count_np np (np2count tb)
    ∧ (∀ k, k ≠ norm →
         id2group tb' !! k = id2group tb !! k ∧ id2rep tb' !! k = id2rep tb !! k)
    ∧ ((id2group tb !! norm = None
        ∧ id2group tb' !! norm = Some [np] ∧ id2rep tb' !! norm = Some np)
       ∨ (∃ group rep,
            id2group tb !! norm = Some group ∧ id2rep tb !! norm = Some rep
            ∧ (np ∉ group)
            ∧ id2group tb' !! norm = Some (group ++ [np])
            ∧ id2rep tb' !! norm = Some rep)
       ∨ (∃ group rep,
            id2group tb !! norm = Some group ∧ id2rep tb !! norm = Some rep
            ∧ np ∈ group
            ∧ id2group tb' !! norm = Some group
            ∧ id2rep tb' !! norm
              = Some (if (count_of tb' rep <? count_of tb' np)%Z then np else rep))).
Proof.
  intros [H1 H2 H3] Hkey. unfold PrepareData.group_np. rewrite Hkey. simpl.
  set (cnt := count_np np (np2count tb)).
  destruct (id2group tb !! norm) as [group|] eqn:Hg.
  - destruct (proj1 (H1 norm)) as [rep Hr]; [by rewrite Hg |].
    destruct (decide (np ∈ group)) as [Hin | Hnin].
    + destruct (H3 norm group rep Hg (H2 _ _ _ Hr Hg)) as [crep0 Hcr0].
      assert (is_Some (cnt !! rep)) as [crep Hcr].
      { apply count_np_is_Some. eauto. }
      assert (cnt !! np = Some (default 0 (np2count tb !! np) + 1)%Z) as Hc.
      { apply count_np_lookup. }
      erewrite group_update_seen; [| done | done | done | exact Hc | exact Hcr].
      simpl. eexists. split; [done |]. simpl.
      split; [done |]. split; [done |]. split.
      * intros k Hk. split; [done |].
        destruct (crep <? _)%Z; [by rewrite lookup_insert_ne | done].
      * right. right. exists group, rep. unfold count_of. simpl.
        rewrite Hc, Hcr. simpl. repeat (split; [done |]).
        destruct (crep <? _)%Z; [by rewrite lookup_insert_eq | done].
    + erewrite group_update_append; [| done | done | done].
      simpl. eexists. split; [done |]. simpl.
      split; [done |]. split; [done |]. split.
      * intros k Hk. by rewrite lookup_insert_ne.
      * right. left. exists group, rep. by rewrite lookup_insert_eq.
  - rewrite group_update_new by done.
    simpl. eexists. split; [done |]. simpl.
    split; [done |]. split; [done |]. split.
    + intros k Hk. by rewrite !lookup_insert_ne.
    + left. by rewrite !lookup_insert_eq.
Qed.

(** C10: when the key has a group and a representative already and the
    variant is not in the group, the occurrence appends the variant and
    leaves [id2rep] as it was, whatever the counts are; when the variant is
    in the group already, the group is left as it was.  So no single
    occurrence both extends a group and changes its representative. *)
Theorem C10_first_insertion_keeps_rep
    (np lemma norm rep : string) (group : list string) (tb : Tables) :
  key_of np lemma = Some norm →
  id2group tb !! norm = Some group → id2rep tb !! norm = Some rep →
  (np ∉ group →
     ∃ out tb', group_np np lemma tb = Some (out, tb')
       ∧ id2group tb' = <[norm := group ++ [np]]> (id2group tb)
       ∧ id2rep tb' = id2rep tb
       ∧ np2count tb' = count_np np (np2count tb))
  ∧ (np ∈ group →
     ∀ out tb', group_np np lemma tb = Some (out, tb') →
       id2group tb' = id2group tb).
Proof.
  intros Hkey Hg Hr. unfold PrepareData.group_np. rewrite Hkey. simpl. split.
  - intros Hnin. erewrite group_update_append; [| done | done | done].
    simpl. eexists _, _. split; [reflexivity |]. done.
  - intros Hin out tb' H.
    destruct (group_update _ _ _) as [tb2|] eqn:E; [| done]. simpl in H.
    injection H as _ <-. unfold group_update in E. simpl in E.
    rewrite Hg, Hr in E. rewrite decide_True in E by done.
    destruct (count_np np (np2count tb) !! np); [| done]. simpl in E.
    rewrite Hr in E. simpl in E.
    destruct (count_np np (np2count tb) !! rep); [| done]. simpl in E.
    by injection E as <-.
Qed.

End OccurrenceFacts.

(** ** The representative while phrases keep one key *)

Section TrackedFacts.
Variable stem : string -> string.
Variable spacy_lemmatizer : string -> string -> list string.
Variable args : Args.
Variable S : list Span.
Hypothesis S_one_key : one_key stem spacy_lemmatizer args S.

Local Abbreviation group_np := (PrepareData.group_np stem spacy_lemmatizer args).
Local Abbreviation span_key := (Claims.span_key stem spacy_lemmatizer args).
Local Abbreviation tracked := (Claims.tracked stem spacy_lemmatizer args S).

Lemma tracked_empty : tracked empty_tables.
Proof.
  split; [apply well_formed_empty | ..]; simpl.
  - intros k g v H. by rewrite lookup_empty in H.
  - intros v k H. by rewrite lookup_empty in H.
  - intros v c H. by rewrite lookup_empty in H.
  - intros v k H. by rewrite lookup_empty in H.
  - intros k r H. simpl in H. by rewrite lookup_empty in H.
Qed.

Lemma tracked_step sp norm tb :
  tracked tb → sp ∈ S → span_key sp = Some norm →
  ∃ tb',
    group_np (text sp) (lemma_ sp) tb
    = Some (replace " " (mark_char args) norm +:+ mark_char args, tb')
    ∧ tracked tb'.
Proof.
  intros [Hwf I3 I4 I5 I6 I7] Hsp Hkey. set (np := text sp).
  destruct (group_np_cases stem spacy_lemmatizer args np (lemma_ sp) norm tb Hwf Hkey)
    as (tb' & Hrun & Hid & Hcnt & Hother & Hcases).
  destruct (group_np_well_formed stem spacy_lemmatizer args np (lemma_ sp) norm tb Hwf Hkey)
    as (tb2 & Hrun2 & Hwf' & _ & Hgrp & _).
  assert (tb2 = tb') as -> by congruence.
  exists tb'. split; [done |].
  assert (∀ k g, id2group tb !! k = Some g → np ∈ g → k = norm) as F1.
  { intros k g Hg Hin. pose proof (I3 _ _ _ Hg Hin) as Hnp.
    apply I4 in Hnp as (sp' & Hsp' & Htext & Hkey').
    pose proof (S_one_key sp' sp Hsp' Hsp Htext). congruence. }
  assert (∀ k g' v, id2group tb' !! k = Some g' → v ∈ g' → v ≠ np →
            ∃ g, id2group tb !! k = Some g ∧ v ∈ g) as Hold.
  { intros k g' v Hg' Hv Hne. destruct (decide (k = norm)) as [-> | Hk].
    - destruct Hcases as [(Hn & Hg1 & _)
        | [(g & r & Hg0 & Hr0 & Hnin & Hg1 & Hr1)
          | (g & r & Hg0 & Hr0 & Hin & Hg1 & Hr1)]];
        rewrite Hg1 in Hg'; injection Hg' as <-.
      + by apply list_elem_of_singleton in Hv.
      + apply elem_of_app in Hv as [Hv | Hv%list_elem_of_singleton]; [by eauto | done].
      + eauto.
    - destruct (Hother k Hk) as [E _]. rewrite E in Hg'. eauto. }
  assert (∀ k g v, id2group tb !! k = Some g → v ∈ g →
            ∃ g', id2group tb' !! k = Some g' ∧ v ∈ g') as Hnew.
  { intros k g v Hg Hv. destruct (decide (k = norm)) as [-> | Hk].
    - destruct Hcases as [(Hn & Hg1 & _)
        | [(g0 & r & Hg0 & Hr0 & Hnin & Hg1 & Hr1)
          | (g0 & r & Hg0 & Hr0 & Hin & Hg1 & Hr1)]]; [congruence | ..];
        assert (g0 = g) as -> by congruence; eexists; (split; [done |]).
      + apply elem_of_app. by left.
      + done.
    - destruct (Hother k Hk) as [E _]. rewrite E. eauto. }
  assert (∀ v, count_of tb' v
               = (count_of tb v + if decide (v = np) then 1 else 0)%Z) as Hcount.
  { intros v. by apply count_of_count_np. }
  split; [done | ..].
  - intros k g' v Hg' Hv. rewrite Hid. destruct (decide (v = np)) as [-> | Hne].
    + rewrite lookup_insert_eq. f_equal.
      destruct (decide (k = norm)) as [-> | Hk]; [done |].
      destruct (Hother k Hk) as [E _]. rewrite E in Hg'.
      symmetry. by apply (F1 k g').
    + rewrite lookup_insert_ne by done.
      destruct (Hold k g' v Hg' Hv Hne) as (g & Hg & Hvg). eauto.
  - intros v k. rewrite Hid. destruct (decide (v = np)) as [-> | Hne].
    + rewrite lookup_insert_eq. intros [= <-]. by exists sp.
    + rewrite lookup_insert_ne by done. apply I4.
  - intros v c. rewrite Hcnt, Hid. destruct (decide (v = np)) as [-> | Hne].
    + rewrite count_np_lookup, lookup_insert_eq. intros [= <-].
      split; [| by eauto].
      destruct (np2count tb !! np) as [c0|] eqn:E; simpl; [| lia].
      apply I5 in E. lia.
    + rewrite count_np_lookup_ne, lookup_insert_ne by done. apply I5.
  - intros v k. rewrite Hid. destruct (decide (v = np)) as [-> | Hne].
    + rewrite lookup_insert_eq. by intros [= <-].
    + rewrite lookup_insert_ne by done. intros H.
      apply I6 in H as (g & Hg & Hv). eauto.
  - intros k r Hr. destruct Hwf' as [W1 W2 W3].
    destruct (proj2 (W1 k)) as [g' Hg']; [by eauto |].
    exists g'. split; [done |]. split; [by eapply W2 |].
    intros v Hv. rewrite !Hcount.
    destruct (decide (k = norm)) as [-> | Hk].
    + destruct Hcases as [(Hn & Hg1 & Hr1)
        | [(g & r0 & Hg0 & Hr0 & Hnin & Hg1 & Hr1)
          | (g & r0 & Hg0 & Hr0 & Hin & Hg1 & Hr1)]];
        rewrite Hg1 in Hg'; injection Hg' as <-;
        rewrite Hr1 in Hr; injection Hr as <-.
      * apply list_elem_of_singleton in Hv as ->. lia.
      * destruct (I7 norm r0 Hr0) as (g0 & Hg0' & Hr0g & Hmax).
        assert (g0 = g) as -> by congruence.
        assert (r0 ≠ np) as Hr0np by (by intros ->).
        rewrite (decide_False (P := r0 = np)) by done.
        assert (1 <= count_of tb r0)%Z as Hr0c.
        { destruct Hwf as [_ _ H3]. destruct (H3 norm g r0 Hg0 Hr0g) as [c Hc].
          unfold count_of. rewrite Hc. simpl. by apply I5 in Hc as [? _]. }
        apply elem_of_app in Hv as [Hv | Hv%list_elem_of_singleton].
        -- assert (v ≠ np) by (by intros ->).
           rewrite decide_False by done. specialize (Hmax v Hv). lia.
        -- subst v. rewrite decide_True by done.
           assert (np2count tb !! np = None) as Hnone.
           { destruct (np2count tb !! np) as [c|] eqn:E; [| done].
             apply I5 in E as [_ [k1 Hk1]].
             pose proof (I6 _ _ Hk1) as (g1 & Hg1' & Hin1).
             pose proof (F1 _ _ Hg1' Hin1). subst k1. congruence. }
           unfold count_of at 1. rewrite Hnone. simpl. lia.
      * destruct (I7 norm r0 Hr0) as (g0 & Hg0' & Hr0g & Hmax).
        assert (g0 = g) as -> by congruence.
        specialize (Hmax v Hv). pose proof (Hcount r0) as Hc0.
        pose proof (Hcount np) as Hc1. rewrite decide_True in Hc1 by done.
        destruct (Z.ltb_spec (count_of tb' r0) (count_of tb' np)).
        -- rewrite (decide_True (P := np = np)) by done.
           repeat case_decide; subst; lia.
        -- pose proof (I7 norm r0 Hr0) as (g1 & ? & ? & Hmax1).
           assert (g1 = g) as -> by congruence.
           pose proof (Hmax1 np Hin).
           repeat case_decide; subst; lia.
    + destruct (Hother k Hk) as [E1 E2]. rewrite E1 in Hg'. rewrite E2 in Hr.
      destruct (I7 k r Hr) as (g & Hg & Hrg & Hmax).
      assert (g = g') as -> by congruence.
      assert (v ≠ np) by (intros ->; by apply Hk, (F1 k g')).
      assert (r ≠ np) by (intros ->; by apply Hk, (F1 k g')).
      rewrite !decide_False by done. specialize (Hmax v Hv). lia.
Qed.

End TrackedFacts.

(** ** From documents to occurrences *)

Section TraceFacts.
Variable stem : string -> string.
Variable spacy_lemmatizer : string -> string -> list string.
Variable args : Args.
Hypothesis grouping_on : grouping args = true.

Local Abbreviation group_np := (PrepareData.group_np stem spacy_lemmatizer args).
Local Abbreviation group_nps := (Claims.group_nps stem spacy_lemmatizer args).
Local Abbreviation process_tokens := (PrepareData.process_tokens stem spacy_lemmatizer args).
Local Abbreviation process_doc := (PrepareData.process_doc stem spacy_lemmatizer args).
Local Abbreviation process_docs := (PrepareData.process_docs stem spacy_lemmatizer args).

Lemma group_nps_app occs1 : ∀ occs2 tb,
  group_nps tb (occs1 ++ occs2)
  = group_nps tb occs1 ≫= fun tb1 => group_nps tb1 occs2.
Proof.
  induction occs1 as [|sp occs1 IH]; intros occs2 tb; [done |].
  simpl. destruct (group_np _ _ _) as [[o tb1]|]; [| done]. simpl. apply IH.
Qed.

(** The tables after the token loop are those the grouping branch makes of
    the marked spans, taken in order. *)
Lemma process_tokens_tables toks : ∀ tb out sp rest w,
  tables <$> process_tokens
    {| tables := tb; written := out; span := sp; spans := rest;
       spanWritten := w |} toks
  = group_nps tb (marked_from sp rest w toks).
Proof.
  induction toks as [|token toks IH]; intros tb out sp rest w; [done |].
  cbn [PrepareData.process_tokens marked_from].
  unfold PrepareData.process_token. cbn [span].
  destruct sp as [s|]; [| rewrite write_token_verbatim; apply IH].
  destruct (outside token s); [rewrite write_token_verbatim; apply IH |].
  unfold PrepareData.write_span. cbn [spanWritten].
  destruct w.
  - simpl. unfold advance. cbn [spans]. destruct (_ =? _)%Z; [| apply IH].
    destruct rest; apply IH.
  - unfold PrepareData.mark_span. destruct (accepted s).
    + rewrite grouping_on. cbn [app group_nps tables].
      destruct (group_np (text s) (lemma_ s) tb) as [[o tb1]|]; [| done].
      simpl. unfold advance. cbn [spans]. destruct (_ =? _)%Z; [| apply IH].
      destruct rest; apply IH.
    + simpl. unfold advance. cbn [spans]. destruct (_ =? _)%Z; [| apply IH].
      destruct rest; apply IH.
Qed.

Lemma process_doc_tables st doc :
  fst <$> process_doc st doc = group_nps st.1 (marked_spans doc).
Proof.
  unfold PrepareData.process_doc, marked_spans, start.
  destruct (pop0 (noun_chunks doc)) as [s rest]. simpl.
  rewrite <-process_tokens_tables with (out := st.2).
  by destruct (process_tokens _ _).
Qed.

Lemma process_docs_tables docs : ∀ st,
  fst <$> process_docs st docs
  = group_nps st.1 (concat (marked_spans <$> docs)).
Proof.
  induction docs as [|doc docs IH]; intros st; [done |].
  cbn [PrepareData.process_docs fmap list_fmap concat].
  rewrite group_nps_app, <-process_doc_tables.
  destruct (process_doc st doc) as [st1|]; [| done]. simpl. apply IH.
Qed.

Lemma marked_from_sub toks : ∀ sp rest w x,
  x ∈ marked_from sp rest w toks → sp = Some x ∨ x ∈ rest.
Proof.
  induction toks as [|token toks IH]; intros sp rest w x; simpl.
  { by intros ?%elem_of_nil. }
  destruct sp as [s|]; [| by apply IH].
  destruct (outside token s); [by apply IH |].
  intros [Hx | Hx]%elem_of_app.
  - destruct w; [by apply elem_of_nil in Hx |].
    destruct (accepted s); [| by apply elem_of_nil in Hx].
    apply list_elem_of_singleton in Hx as ->. by left.
  - destruct (_ =? _)%Z; [| by apply IH in Hx].
    apply IH in Hx. destruct rest as [|s' rest]; simpl in Hx.
    + destruct Hx as [? | ?%elem_of_nil]; done.
    + right. destruct Hx as [[= ->] | Hx]; [left | by right].
Qed.

Lemma marked_spans_sub doc x : x ∈ marked_spans doc → x ∈ noun_chunks doc.
Proof.
  unfold marked_spans. intros Hx%marked_from_sub.
  destruct (noun_chunks doc) as [|s rest]; simpl in Hx.
  - destruct Hx as [? | ?%elem_of_nil]; done.
  - destruct Hx as [[= ->] | Hx]; [left | by right].
Qed.

End TraceFacts.

(** ** The whole run *)

Section CorpusFacts.
Variable stem : string -> string.
Variable spacy_lemmatizer : string -> string -> list string.
Variable args : Args.
Hypothesis grouping_on : grouping args = true.

Local Abbreviation group_np := (PrepareData.group_np stem spacy_lemmatizer args).
Local Abbreviation group_nps := (Claims.group_nps stem spacy_lemmatizer args).
Local Abbreviation span_key := (Claims.span_key stem spacy_lemmatizer args).
Local Abbreviation tracked := (Claims.tracked stem spacy_lemmatizer args).
Local Abbreviation one_key := (Claims.one_key stem spacy_lemmatizer args).
Local Abbreviation one_key_per_phrase := (Claims.one_key_per_phrase stem spacy_lemmatizer args).
Local Abbreviation process_corpus := (PrepareData.process_corpus stem spacy_lemmatizer args).

Lemma elem_of_concat_fmap {A B} (f : A → list B) (l : list A) (x : B) :
  x ∈ concat (f <$> l) ↔ ∃ a, a ∈ l ∧ x ∈ f a.
Proof.
  induction l as [|a l IH]; simpl.
  - split; [by intros ?%elem_of_nil | by intros (a & ?%elem_of_nil & _)].
  - rewrite elem_of_app, IH. split.
    + intros [Hx | (b & Hb & Hx)]; [exists a | exists b]; split; try done;
        by constructor.
    + intros (b & Hb & Hx). apply elem_of_cons in Hb as [-> | Hb]; eauto.
Qed.

Lemma elem_of_take_sub {A} (l : list A) n x : x ∈ take n l → x ∈ l.
Proof. intros H. rewrite <-(take_drop n l). apply elem_of_app. by left. Qed.

Lemma group_nps_tracked S occs : one_key S → ∀ tb tb',
  tracked S tb → Forall (fun sp => sp ∈ S) occs →
  group_nps tb occs = Some tb' → tracked S tb'.
Proof.
  intros HS. induction occs as [|sp occs IH]; intros tb tb' Htr Hall; simpl.
  { by intros [= <-]. }
  apply Forall_cons in Hall as [Hsp Hall].
  destruct (group_np _ _ _) as [[o tb1]|] eqn:E; [| done]. simpl.
  pose proof E as (norm & Hkey & _)%group_np_inv.
  destruct (tracked_step stem spacy_lemmatizer args S HS sp norm tb Htr Hsp Hkey)
    as (tb2 & E2 & Htr2).
  assert (tb2 = tb1) as -> by congruence. by apply IH.
Qed.

Lemma group_nps_well_formed occs : ∀ tb,
  well_formed tb → Forall (fun sp => is_Some (span_key sp)) occs →
  ∃ tb', group_nps tb occs = Some tb' ∧ well_formed tb'.
Proof.
  induction occs as [|sp occs IH]; intros tb Hwf Hall; simpl; [by eauto |].
  apply Forall_cons in Hall as [[norm Hkey] Hall].
  destruct (group_np_well_formed stem spacy_lemmatizer args _ _ _ tb Hwf Hkey)
    as (tb1 & -> & Hwf1 & _).
  simpl. by apply IH.
Qed.

Lemma occurrences_cons v sp occs :
  occurrences v (sp :: occs)
  = ((if decide (text sp = v) then 1 else 0) + occurrences v occs)%Z.
Proof.
  unfold occurrences. rewrite filter_cons. case_decide; simpl; lia.
Qed.

(** [np2count] counts the marked spans. *)
Lemma group_nps_count occs : ∀ tb tb' v,
  group_nps tb occs = Some tb' →
  count_of tb' v = (count_of tb v + occurrences v occs)%Z.
Proof.
  induction occs as [|sp occs IH]; intros tb tb' v; simpl.
  { intros [= <-]. unfold occurrences. simpl. lia. }
  destruct (group_np _ _ _) as [[o tb1]|] eqn:E; [| done]. simpl. intros H.
  apply group_np_inv in E as (norm & _ & Hup%group_update_np2count & _).
  simpl in Hup. rewrite (IH _ _ v H), occurrences_cons.
  rewrite (count_of_count_np (text sp) tb tb1 v Hup).
  repeat case_decide; subst; (done || lia).
Qed.

Lemma one_key_chunks docs :
  one_key_per_phrase docs → one_key (concat (noun_chunks <$> docs)).
Proof.
  intros H sp1 sp2 (d1 & Hd1 & H1)%elem_of_concat_fmap
    (d2 & Hd2 & H2)%elem_of_concat_fmap Ht. by apply (H d1 d2).
Qed.

Lemma marked_chunks docs :
  Forall (fun sp => sp ∈ concat (noun_chunks <$> docs))
    (concat (marked_spans <$> docs)).
Proof.
  apply Forall_forall. intros sp (d & Hd & Hsp)%elem_of_concat_fmap.
  apply elem_of_concat_fmap. exists d. split; [done |].
  by apply marked_spans_sub.
Qed.

Lemma process_corpus_tables docs tb out :
  process_corpus docs = Some (tb, out) →
  group_nps empty_tables (concat (marked_spans <$> docs)) = Some tb.
Proof.
  intros H. unfold PrepareData.process_corpus in H.
  pose proof (process_docs_tables stem spacy_lemmatizer args grouping_on docs
                (empty_tables, "")) as E.
  rewrite H in E. simpl in E. by rewrite <-E.
Qed.

(** After any run, the tables are those of a run over spans that kept one
    key per phrase, if the corpus is so. *)
Lemma process_corpus_tracked docs tb out :
  one_key_per_phrase docs → process_corpus docs = Some (tb, out) →
  tracked (concat (noun_chunks <$> docs)) tb.
Proof.
  intros Hone H%process_corpus_tables.
  eapply group_nps_tracked; [by apply one_key_chunks | | | done].
  - by apply tracked_empty.
  - apply marked_chunks.
Qed.

Lemma one_key_per_phrase_take n docs :
  one_key_per_phrase docs → one_key_per_phrase (take n docs).
Proof.
  intros H d1 d2 sp1 sp2 Hd1%elem_of_take_sub Hd2%elem_of_take_sub.
  by apply H.
Qed.

(** C1: in grouping mode, when every phrase of the corpus has one key,
    then after every processed line each key's representative is one of
    the key's variants and no variant of the key has a higher count.  Ties
    do not go to the variant seen first: from such tables, one more
    occurrence changes a representative only to the phrase just met, and
    only if that phrase was in the group already and its count is now
    strictly higher than the old representative's. *)
Theorem C1_rep_most_frequent (docs : list Doc) (n : nat) (tb : Tables) (out : string) :
  one_key_per_phrase docs →
  process_corpus (take n docs) = Some (tb, out) →
  rep_most_frequent tb
  ∧ ∀ np lemma out' tb' k r r',
      group_np np lemma tb = Some (out', tb') →
      id2rep tb !! k = Some r → id2rep tb' !! k = Some r' → r' ≠ r →
      r' = np ∧ (count_of tb' r < count_of tb' np)%Z
      ∧ ∃ group, id2group tb !! k = Some group ∧ np ∈ group.
Proof.
  intros Hone Hrun.
  pose proof (process_corpus_tracked _ _ _ (one_key_per_phrase_take n _ Hone) Hrun)
    as [Hwf _ _ _ _ Hmax].
  split; [done |].
  intros np lemma out' tb' k r r' Hnp Hr Hr' Hne.
  pose proof Hnp as (norm & Hkey & _)%group_np_inv.
  destruct (group_np_cases stem spacy_lemmatizer args np lemma norm tb Hwf Hkey)
    as (tb2 & E2 & _ & _ & Hother & Hcases).
  assert (tb2 = tb') as -> by congruence.
  destruct (decide (k = norm)) as [-> | Hk].
  - destruct Hcases as [(Hn & _) | [(g & r0 & Hg0 & Hr0 & _ & _ & Hr1)
                                   | (g & r0 & Hg0 & Hr0 & Hin & _ & Hr1)]].
    + destruct Hwf as [H1 _ _]. destruct (proj2 (H1 norm)) as [? ?]; [by eauto |].
      congruence.
    + congruence.
    + assert (r0 = r) as -> by congruence. rewrite Hr1 in Hr'.
      destruct (Z.ltb_spec (count_of tb' r) (count_of tb' np)); [| congruence].
      injection Hr' as <-. eauto.
  - destruct (Hother k Hk) as [_ E]. congruence.
Qed.

End CorpusFacts.

(** ** New York and NY *)

Section NewYorkFacts.
Variable stem : string -> string.
Variable spacy_lemmatizer : string -> string -> list string.
Variable args : Args.
Hypothesis grouping_on : grouping args = true.

Local Abbreviation group_nps := (Claims.group_nps stem spacy_lemmatizer args).
Local Abbreviation span_key := (Claims.span_key stem spacy_lemmatizer args).
Local Abbreviation process_corpus := (PrepareData.process_corpus stem spacy_lemmatizer args).

Lemma count_of_empty v : count_of empty_tables v = 0%Z.
Proof. unfold count_of. simpl. by rewrite lookup_empty. Qed.

Lemma count_of_pos tb v :
  (0 < count_of tb v)%Z → np2count tb !! v = Some (count_of tb v).
Proof. unfold count_of. destruct (np2count tb !! v); simpl; [done | lia]. Qed.

(** C5: two sentences whose marked spans are, in any order, five "NY"
    with the lemma "New York" and three "New York", all with the same key:
    in grouping mode the run succeeds and the key's representative is
    "NY" at the end. *)
Theorem C5_ny_representative (d1 d2 : Doc) (k : string) :
  let occs := marked_spans d1 ++ marked_spans d2 in
  Forall (fun sp =>
            span_key sp = Some k
            ∧ ((text sp = "NY" ∧ lemma_ sp = "New York") ∨ text sp = "New York"))
         occs →
  occurrences "NY" occs = 5%Z →
  occurrences "New York" occs = 3%Z →
  ∃ tb out, process_corpus [d1; d2] = Some (tb, out)
    ∧ id2rep tb !! k = Some "NY".
Proof.
  intros occs Hall Hny Hnewyork.
  assert (one_key stem spacy_lemmatizer args occs) as Hone.
  { intros sp1 sp2 H1 H2 _. rewrite Forall_forall in Hall.
    destruct (Hall sp1 H1) as [-> _]. by destruct (Hall sp2 H2) as [-> _]. }
  destruct (group_nps_well_formed stem spacy_lemmatizer args occs empty_tables)
    as (tb & Hrun & Hwf); [apply well_formed_empty | |].
  { eapply Forall_impl; [exact Hall |]. intros sp [-> _]. eauto. }
  pose proof (process_docs_tables stem spacy_lemmatizer args grouping_on
                [d1; d2] (empty_tables, "")) as E.
  cbn [fmap list_fmap concat] in E. rewrite app_nil_r in E.
  fold occs in E. cbn [fst] in E. rewrite Hrun in E.
  unfold PrepareData.process_corpus.
  destruct (process_docs _ _ _ _ _) as [[tb0 out]|]; [| done].
  injection E as ->. exists tb, out. split; [done |].
  pose proof (group_nps_count stem spacy_lemmatizer args occs _ _ "NY" Hrun) as Cny.
  pose proof (group_nps_count stem spacy_lemmatizer args occs _ _ "New York" Hrun)
    as Cnewyork.
  rewrite count_of_empty in Cny, Cnewyork.
  assert (tracked stem spacy_lemmatizer args occs tb) as [_ I3 I4 I5 I6 I7].
  { eapply group_nps_tracked; [done | by apply tracked_empty | | done].
    by apply Forall_forall. }
  assert (∀ v k', np2id tb !! v = Some k' →
            k' = k ∧ (v = "NY" ∨ v = "New York")) as Hkeyed.
  { intros v k' (sp & Hsp & <- & Hk)%I4. rewrite Forall_forall in Hall.
    destruct (Hall sp Hsp) as [Hk' Ht]. split; [congruence | tauto]. }
  assert (np2count tb !! "NY" = Some 5%Z) as Hc.
  { rewrite <-Hny, <-(Z.add_0_l (occurrences _ _)), <-Cny.
    apply count_of_pos. lia. }
  apply I5 in Hc as [_ [k' Hid]].
  pose proof (Hkeyed _ _ Hid) as [-> _].
  apply I6 in Hid as (group & Hgroup & Hin).
  destruct Hwf as [W1 W2 _].
  destruct (proj1 (W1 k)) as [r Hr]; [by eauto |].
  destruct (I7 k r Hr) as (g & Hg & Hrg & Hmax).
  assert (g = group) as -> by congruence.
  pose proof (Hmax "NY" Hin) as Hle.
  pose proof (I3 _ _ _ Hgroup Hrg) as [_ [-> | ->]]%Hkeyed; [done |].
  lia.
Qed.

End NewYorkFacts.

(** ** Sample runs *)

Section SampleRuns.

Local Abbreviation run := (PrepareData.process_corpus keep one_lemma).

Lemma one_key_check_sound stem spacy_lemmatizer args S :
  one_key_check stem spacy_lemmatizer args S = true →
  one_key stem spacy_lemmatizer args S.
Proof.
  unfold one_key_check, one_key. rewrite forallb_forall.
  intros H sp1 sp2 H1%list_elem_of_In H2%list_elem_of_In Ht.
  specialize (H sp1 H1). rewrite forallb_forall in H. specialize (H sp2 H2).
  apply orb_true_iff in H as [H | H].
  - apply negb_true_iff, bool_decide_eq_false in H. done.
  - by apply bool_decide_eq_true in H.
Qed.

Lemma one_key_per_phrase_check stem spacy_lemmatizer args docs :
  one_key_check stem spacy_lemmatizer args (concat (noun_chunks <$> docs)) = true →
  one_key_per_phrase stem spacy_lemmatizer args docs.
Proof.
  intros H%one_key_check_sound d1 d2 sp1 sp2 Hd1 Hd2 H1 H2.
  apply H; apply elem_of_concat_fmap; eauto.
Qed.

Lemma tie_corpus_run :
  run grouped tie_corpus
  = Some (tie_tables,
          "x_y_ " +:+ nl +:+ "x_y_ " +:+ nl +:+ "x_y_ " +:+ nl +:+ "x_y_ " +:+ nl).
Proof. by vm_compute. Qed.

Lemma rekeyed_corpus_run :
  fst <$> run grouped (take 3 rekeyed_corpus) = Some rekeyed_tables.
Proof. by vm_compute. Qed.

(** The data model's tie rule fails on the code: after A, B, B, A the two
    variants are tied and the representative is B, seen second; and a
    phrase that changes key enters a group with a count above the
    representative's. *)
Lemma C1_counterexample :
  (∃ tb out, run grouped tie_corpus = Some (tb, out)
     ∧ ¬ rep_first_most_frequent tb)
  ∧ (∃ tb out, run grouped rekeyed_corpus = Some (tb, out)
       ∧ ¬ rep_first_most_frequent tb).
Proof.
  split; eexists _, _; (split; [by vm_compute |]); intros H.
  - specialize (H "x y" ["a b"; "c d"]). vm_compute in H.
    discriminate (H eq_refl).
  - specialize (H "y" ["c d"; "a b"]). vm_compute in H.
    discriminate (H eq_refl).
Qed.

Lemma C1_witness :
  grouping grouped = true
  ∧ one_key_per_phrase keep one_lemma grouped tie_corpus
  ∧ run grouped (take 4 tie_corpus)
    = Some (tie_tables,
            "x_y_ " +:+ nl +:+ "x_y_ " +:+ nl +:+ "x_y_ " +:+ nl +:+ "x_y_ " +:+ nl)
  ∧ rep_most_frequent tie_tables.
Proof.
  assert (one_key_per_phrase keep one_lemma grouped tie_corpus) as Hone.
  { apply one_key_per_phrase_check. by vm_compute. }
  assert (run grouped (take 4 tie_corpus)
          = Some (tie_tables,
                  "x_y_ " +:+ nl +:+ "x_y_ " +:+ nl +:+ "x_y_ " +:+ nl +:+ "x_y_ " +:+ nl))
    as Hrun by (by vm_compute).
  repeat (split; [done |]).
  exact (proj1 (C1_rep_most_frequent keep one_lemma grouped eq_refl
                  tie_corpus 4 tie_tables _ Hone Hrun)).
Defined.

Lemma C2_witness :
  token_text (tok "The" 0) ≠ ""
  ∧ range_outside (tok "The" 0) (chunk "climate change" "climate change" 4 18)
  ∧ PrepareData.process_token keep one_lemma plain
      (at_span (Some (chunk "climate change" "climate change" 4 18)) [])
      (tok "The" 0)
    = Some {| tables := empty_tables; written := "The ";
              span := Some (chunk "climate change" "climate change" 4 18);
              spans := []; spanWritten := false |}
  ∧ PrepareData.process_token keep one_lemma plain (at_span None [])
      (tok nbsp 3)
    = Some {| tables := empty_tables; written := "";
              span := None; spans := []; spanWritten := false |}.
Proof.
  assert (token_text (tok "The" 0) ≠ "") as Hne by done.
  assert (token_text (tok nbsp 3) ≠ "") as Hne' by done.
  assert (range_outside (tok "The" 0)
            (chunk "climate change" "climate change" 4 18)) as Hout.
  { left. by vm_compute. }
  split; [exact Hne |]. split; [exact Hout |]. split.
  - apply (C2_token_outside_verbatim keep one_lemma plain
             (at_span (Some (chunk "climate change" "climate change" 4 18)) [])
             (tok "The" 0) Hne).
    right. eexists. split; [reflexivity | exact Hout].
  - apply (C2_token_outside_verbatim keep one_lemma plain (at_span None [])
             (tok nbsp 3) Hne').
    by left.
Defined.

(** The claim's marking gives way on a doubled space, and the sample line
    ends in a space before the newline. *)
Lemma C3_counterexample :
  accepted the_cat = true
  ∧ PrepareData.mark_span keep one_lemma plain the_cat empty_tables
    = Some ("the__cat_ ", empty_tables)
  ∧ (mark_runs "_" false (text the_cat) +:+ "_") +:+ " " = "the_cat_ "
  ∧ run plain [climate]
    ≠ Some (empty_tables, "The climate_change_ is real" +:+ nl).
Proof. repeat split; by vm_compute. Qed.

Lemma C3_witness :
  grouping plain = false ∧ accepted the_cat = true
  ∧ PrepareData.mark_span keep one_lemma plain the_cat empty_tables
    = Some ("the__cat_ ", empty_tables).
Proof.
  repeat (split; [reflexivity |]).
  exact (proj1 (C3_plain_marks_each_space keep one_lemma) plain the_cat
           empty_tables eq_refl eq_refl).
Defined.



Lemma C5_witness :
  ∃ tb out, run grouped [ny_first; ny_second] = Some (tb, out)
    ∧ id2rep tb !! "New York" = Some "NY".
Proof.
  apply (C5_ny_representative keep one_lemma grouped eq_refl ny_first ny_second
           "New York"); [| reflexivity | reflexivity].
  vm_compute.
  repeat (constructor;
          [split; [reflexivity
                  | first [left; split; reflexivity | right; reflexivity]] |]).
  constructor.
Defined.

Lemma C6_witness :
  isupper "ABS" = true ∧ length (split "ABS") = 1%nat
  ∧ Text.spacy_normalizer keep one_lemma "ABS" (Some "ab") = Some "ABS".
Proof.
  repeat (split; [reflexivity |]).
  apply C6_upper_plural_unchanged; [reflexivity | by exists "AB" | reflexivity].
Defined.

(** The upper-case guard reads the letters of Latin-1 as Python does: an
    [S] after a lower-case e with an acute accent is not upper case and
    goes through the normalizer, after the upper-case one it is kept. *)
Lemma upper_guard_latin1 :
  isupper e_acute_S = false ∧ Text.needs_normalizing e_acute_S = true
  ∧ isupper (String (ascii_of_nat 201) "S") = true
  ∧ Text.needs_normalizing (String (ascii_of_nat 201) "S") = false.
Proof. repeat split; reflexivity. Qed.

Lemma C7_witness :
  ∃ tb',
    PrepareData.mark_span keep one_lemma grouped e_mail empty_tables
    = Some ("e_mail_box_ ", tb')
    ∧ np2id tb' !! "e_mail box" = Some "e mail box"
    ∧ contains "_" "e mail box" = false.
Proof.
  destruct (C7_marker_replaced_in_key keep one_lemma grouped e_mail
              "e_mail box" empty_tables eq_refl eq_refl well_formed_empty
              eq_refl eq_refl)
    as (tb' & Hrun & _ & Hid & _ & _ & Hclean).
  exists tb'. split; [exact Hrun |]. split; [exact Hid |].
  apply Hclean; [done | reflexivity].
Defined.

(** A first span that holds no token is not passed: the second span of
    the line is never marked, while without the first one it is. *)
Lemma C8_counterexample :
  Forall (fun token => outside token (chunk " " " " 1 2) = true) (tokens big_cat)
  ∧ PrepareData.process_doc keep one_lemma plain (empty_tables, "") big_cat
    = Some (empty_tables, "x big cat " +:+ nl)
  ∧ PrepareData.process_doc keep one_lemma plain (empty_tables, "") big_cat_only
    = Some (empty_tables, "x big_cat_ " +:+ nl)
  ∧ PrepareData.process_doc keep one_lemma plain (empty_tables, "") big_cat
    ≠ PrepareData.process_doc keep one_lemma plain (empty_tables, "") big_cat_only.
Proof.
  split; [by repeat constructor |]. repeat split; by vm_compute.
Qed.

Lemma C8_witness :
  PrepareData.process_tokens keep one_lemma plain
    (at_span (Some (chunk " " " " 1 2)) [chunk "big cat" "big cat" 2 9])
    (tokens big_cat)
  = Some (write "x big cat "
            (at_span (Some (chunk " " " " 1 2)) [chunk "big cat" "big cat" 2 9])).
Proof.
  apply (proj1 (C8_cursor_advance keep one_lemma plain
                  (at_span (Some (chunk " " " " 1 2))
                     [chunk "big cat" "big cat" 2 9])
                  (chunk " " " " 1 2) eq_refl)).
  repeat constructor.
Defined.


Lemma C10_witness :
  (count_of rekeyed_tables "c d" < count_of rekeyed_tables "a b")%Z
  ∧ ∃ out tb',
      PrepareData.group_np keep one_lemma grouped "a b" "y" rekeyed_tables
      = Some (out, tb')
      ∧ id2group tb' = <["y" := ["c d"; "a b"]]> (id2group rekeyed_tables)
      ∧ id2rep tb' = id2rep rekeyed_tables
      ∧ np2count tb' = count_np "a b" (np2count rekeyed_tables).
Proof.
  split; [by vm_compute |].
  apply (proj1 (C10_first_insertion_keeps_rep keep one_lemma grouped
                  "a b" "y" "y" "c d" ["c d"] rekeyed_tables
                  eq_refl eq_refl eq_refl)).
  by intros ?%list_elem_of_singleton.
Defined.

End SampleRuns.

(** ** Dictionaries *)

Section DictFacts.
Context {K V : Type} `{EqDecision K}.
Implicit Types (d : list (K * V)) (k : K) (v : V).

Lemma get_set_eq d k v : PyDict.get (PyDict.set k v d) k = Some v.
Proof.
  induction d as [|[k' v'] d IH]; simpl.
  - by rewrite decide_True.
  - destruct (decide (k' = k)) as [-> | Hne]; simpl.
    + by rewrite decide_True.
    + by rewrite decide_False.
Qed.

Lemma get_set_ne d k k' v : k ≠ k' → PyDict.get (PyDict.set k v d) k' = PyDict.get d k'.
Proof.
  intros Hne. induction d as [|[k0 v0] d IH]; simpl.
  - by rewrite decide_False.
  - destruct (decide (k0 = k)) as [-> | Hk]; simpl.
    + by rewrite !decide_False.
    + by rewrite IH.
Qed.

Lemma get_None d k : PyDict.get d k = None ↔ k ∉ d.*1.
Proof.
  induction d as [|[k' v'] d IH]; simpl.
  - split; [intros _; apply not_elem_of_nil | done].
  - rewrite not_elem_of_cons. destruct (decide (k' = k)) as [-> | Hne].
    + split; [done | by intros [? _]].
    + rewrite IH. split; [by intros ?; split | by intros [_ ?]].
Qed.

(** A key that is not there goes to the end. *)
Lemma set_fresh d k v : k ∉ d.*1 → PyDict.set k v d = d ++ [(k, v)].
Proof.
  induction d as [|[k' v'] d IH]; simpl; [done |].
  intros [Hne Hd]%not_elem_of_cons. rewrite decide_False by done.
  by rewrite IH.
Qed.

Lemma get_Some_elem d k v :
  NoDup d.*1 → PyDict.get d k = Some v ↔ (k, v) ∈ d.
Proof.
  induction d as [|[k' v'] d IH]; simpl.
  - intros _. split; [done | by intros ?%elem_of_nil].
  - intros [Hk' Hd]%NoDup_cons. rewrite elem_of_cons.
    destruct (decide (k' = k)) as [-> | Hne].
    + split; [by intros [= ->]; left |].
      intros [[= ->] | Hin]; [done |]. exfalso. apply Hk'.
      apply list_elem_of_fmap. by exists (k, v).
    + rewrite (IH Hd). split; [by right | by intros [[= -> ->] | ?]].
Qed.

(** Setting entries with new, distinct keys one after the other appends
    them in order. *)
Lemma foldl_set_fresh {A} (f : A → K * V) (l : list A) : ∀ d,
  NoDup (d ++ (f <$> l)).*1 →
  foldl (fun acc a => PyDict.set (f a).1 (f a).2 acc) d l = d ++ (f <$> l).
Proof.
  induction l as [|a l IH]; intros d Hnd; simpl; [by rewrite app_nil_r |].
  assert (((f a).1, (f a).2) = f a) as E by (by destruct (f a)).
  rewrite fmap_app, fmap_cons in Hnd.
  rewrite set_fresh, E.
  - rewrite IH; [by rewrite <-app_assoc |].
    rewrite <-app_assoc, fmap_app. exact Hnd.
  - apply NoDup_app in Hnd as (_ & Hnd & _). intros Hin.
    apply (Hnd _ Hin). left.
Qed.

End DictFacts.

(** ** The vocabulary *)

Section VocabFacts.

Lemma numbered_fst ws : ∀ lo, (numbered lo ws).*1 = ws.
Proof. induction ws as [|w ws IH]; intros lo; simpl; [done | by rewrite IH]. Qed.

Lemma numbered_length ws : ∀ lo, length (numbered lo ws) = length ws.
Proof. induction ws as [|w ws IH]; intros lo; simpl; [done | by rewrite IH]. Qed.

Lemma numbered_bounds ws : ∀ lo (w : string) i,
  (w, i) ∈ numbered lo ws → (lo <= i < lo + Z.of_nat (length ws))%Z.
Proof.
  induction ws as [|w0 ws IH]; intros lo w i; simpl.
  - by intros ?%elem_of_nil.
  - intros [[= -> ->] | Hin%IH]%elem_of_cons; lia.
Qed.

Lemma numbered_surj ws : ∀ lo i,
  (lo <= i < lo + Z.of_nat (length ws))%Z → ∃ w, (w, i) ∈ numbered lo ws.
Proof.
  induction ws as [|w0 ws IH]; intros lo i Hi; simpl in *; [lia |].
  destruct (decide (i = lo)) as [-> | Hne].
  - exists w0. left.
  - destruct (IH (lo + 1)%Z i) as [w Hw]; [lia |]. exists w. by right.
Qed.

Lemma numbered_snd_NoDup ws : ∀ lo, NoDup (numbered lo ws).*2.
Proof.
  induction ws as [|w ws IH]; intros lo; simpl; [constructor |].
  apply NoDup_cons. split; [| apply IH].
  intros ([w' i] & -> & Hin%numbered_bounds)%list_elem_of_fmap. simpl in Hin. lia.
Qed.

Lemma numbered_app ws w : ∀ lo,
  numbered lo (ws ++ [w]) = numbered lo ws ++ [(w, (lo + Z.of_nat (length ws))%Z)].
Proof.
  induction ws as [|w0 ws IH]; intros lo; simpl.
  - by rewrite Z.add_0_r.
  - rewrite IH.
    by replace (lo + 1 + Z.of_nat (length ws))%Z
      with (lo + Z.of_nat (S (length ws)))%Z by lia.
Qed.

Lemma numbered_offset ws offset : ∀ lo,
  (fun kv : string * Z => (kv.1, (kv.2 + offset)%Z)) <$> numbered lo ws
  = numbered (lo + offset) ws.
Proof.
  induction ws as [|w ws IH]; intros lo; simpl; [done |].
  rewrite IH. by replace (lo + 1 + offset)%Z with (lo + offset + 1)%Z by lia.
Qed.

Lemma swap_fst {A B} (l : list (A * B)) : (swap <$> l).*1 = l.*2.
Proof. induction l as [|[a b] l IH]; simpl; [done | by f_equal]. Qed.

Lemma elem_of_swap {A B} (l : list (A * B)) a b :
  (b, a) ∈ swap <$> l ↔ (a, b) ∈ l.
Proof.
  rewrite list_elem_of_fmap. split.
  - by intros ([a' b'] & [= -> ->] & Hin).
  - intros Hin. by exists (a, b).
Qed.

(** A vocabulary is a list of distinct words numbered from [lo] on, with
    the reverse dictionary in the same order. *)
Lemma built_shape lo v :
  built lo v →
  ∃ ws, NoDup ws
    ∧ Vocab._vocab v = numbered lo ws
    ∧ Vocab._rev_vocab v = swap <$> numbered lo ws
    ∧ Vocab.next v = (lo + Z.of_nat (length ws))%Z.
Proof.
  induction 1 as [start | lo v word _ (ws & Hnd & Hv & Hr & Hn)
                 | lo v offset _ (ws & Hnd & Hv & Hr & Hn)].
  - exists []. repeat split; [constructor | simpl; lia].
  - unfold Vocab.add. simpl.
    destruct (PyDict.get (Vocab._vocab v) word) as [i|] eqn:Hget; [by eauto |].
    simpl. exists (ws ++ [word]).
    apply get_None in Hget. rewrite Hv, numbered_fst in Hget.
    split; [apply NoDup_app; repeat split; [done | | apply NoDup_singleton] |].
    { intros x Hx ->%list_elem_of_singleton. done. }
    rewrite Hv, Hr, Hn, numbered_app, fmap_app, !set_fresh; [| | by rewrite numbered_fst].
    + repeat split. rewrite length_app. simpl. lia.
    + rewrite swap_fst.
      intros ([w i] & E & Hin%numbered_bounds)%list_elem_of_fmap.
      simpl in E. lia.
  - exists ws. unfold Vocab.add_vocab_offset, Vocab.vocab. simpl.
    rewrite Hv.
    assert (foldl (fun acc (kv : string * Z) =>
                     PyDict.set kv.1 (kv.2 + offset)%Z acc) [] (numbered lo ws)
            = numbered (lo + offset) ws) as ->.
    { rewrite (foldl_set_fresh
                 (fun kv : string * Z => (kv.1, (kv.2 + offset)%Z))).
      - by rewrite List.app_nil_l, numbered_offset.
      - by rewrite List.app_nil_l, numbered_offset, numbered_fst. }
    assert (foldl (fun acc (kv : string * Z) => PyDict.set kv.2 kv.1 acc) []
              (numbered (lo + offset) ws)
            = swap <$> numbered (lo + offset) ws) as ->.
    { rewrite (foldl_set_fresh (fun kv : string * Z => swap kv)).
      - by rewrite List.app_nil_l.
      - rewrite List.app_nil_l, swap_fst. apply numbered_snd_NoDup. }
    repeat split; [done | lia].
Qed.

Lemma get_numbered_offset ws offset (w : string) : ∀ lo,
  PyDict.get (numbered (lo + offset) ws) w
  = (fun i => (i + offset)%Z) <$> PyDict.get (numbered lo ws) w.
Proof.
  induction ws as [|w0 ws IH]; intros lo; simpl; [done |].
  destruct (decide (w0 = w)); [done |].
  rewrite <-IH. by replace (lo + 1 + offset)%Z with (lo + offset + 1)%Z by lia.
Qed.

Lemma get_swap_numbered_offset ws offset (i : Z) : ∀ lo,
  PyDict.get (swap <$> numbered (lo + offset) ws) i
  = PyDict.get (swap <$> numbered lo ws) (i - offset)%Z.
Proof.
  induction ws as [|w0 ws IH]; intros lo; simpl; [done |].
  destruct (decide (lo + offset = i)%Z), (decide (lo = i - offset)%Z);
    try done; try lia.
  rewrite <-IH. by replace (lo + 1 + offset)%Z with (lo + offset + 1)%Z by lia.
Qed.

(** X1: in a vocabulary made by the constructor, [add] and
    [add_vocab_offset], the two dictionaries are inverse to each other:
    [word_id(w)] is [i] exactly when [id_to_word(i)] is [w]. *)
Theorem vocabulary_round_trip lo v (w : string) (i : Z) :
  built lo v →
  Vocab.word_id v w = Some i ↔ Vocab.id_to_word v i = Some w.
Proof.
  intros (ws & Hnd & Hv & Hr & _)%built_shape.
  unfold Vocab.word_id, Vocab.id_to_word. rewrite Hv, Hr.
  rewrite !get_Some_elem, elem_of_swap; [done | |].
  - rewrite swap_fst. apply numbered_snd_NoDup.
  - by rewrite numbered_fst.
Qed.

(** X2: the ids of such a vocabulary are the integers from its first id
    up to [next], without a gap: [len] is their number, and [id_to_word]
    answers [None] exactly outside that range. *)
Theorem vocabulary_ids_consecutive lo v :
  built lo v →
  Vocab.len v = (Vocab.next v - lo)%Z
  ∧ ∀ i, is_Some (Vocab.id_to_word v i) ↔ (lo <= i < Vocab.next v)%Z.
Proof.
  intros (ws & Hnd & Hv & Hr & Hn)%built_shape.
  unfold Vocab.len, Vocab.id_to_word. rewrite Hv, Hr, Hn, numbered_length.
  split; [lia |]. intros i.
  assert (NoDup (swap <$> numbered lo ws).*1) as Hids.
  { rewrite swap_fst. apply numbered_snd_NoDup. }
  split.
  - intros [w Hw]. apply get_Some_elem in Hw; [| done].
    apply (proj1 (elem_of_swap _ _ _)) in Hw. by apply numbered_bounds in Hw.
  - intros [w Hw]%numbered_surj. exists w.
    apply get_Some_elem; [done |]. by apply (proj2 (elem_of_swap _ _ _)).
Qed.

(** X3: adding a word the vocabulary does not know returns [next] as its
    id, makes the vocabulary one longer, registers the word under that id
    in both directions and leaves every other word and id as it was. *)
Theorem vocabulary_add_new lo v (word : string) :
  built lo v → Vocab.word_id v word = None →
  let v' := (Vocab.add word v).1 in
  (Vocab.add word v).2 = Some (Vocab.next v)
  ∧ Vocab.word_id v' word = Some (Vocab.next v)
  ∧ Vocab.id_to_word v' (Vocab.next v) = Some word
  ∧ Vocab.len v' = (Vocab.len v + 1)%Z
  ∧ Vocab.next v' = (Vocab.next v + 1)%Z
  ∧ (∀ w, w ≠ word → Vocab.word_id v' w = Vocab.word_id v w)
  ∧ (∀ i, i ≠ Vocab.next v → Vocab.id_to_word v' i = Vocab.id_to_word v i).
Proof.
  intros Hb Hnew v'. subst v'.
  apply built_shape in Hb as (ws & Hnd & Hv & Hr & Hn).
  unfold Vocab.add, Vocab.word_id, Vocab.id_to_word, Vocab.len in *.
  rewrite Hnew. simpl. rewrite !get_set_eq.
  assert (length (PyDict.set word (Vocab.next v) (Vocab._vocab v))
          = S (length (Vocab._vocab v))) as Hlen.
  { rewrite set_fresh by (by apply get_None).
    rewrite length_app. simpl. lia. }
  rewrite Hlen. repeat split; try done; try lia.
  - intros w Hw. by rewrite get_set_ne.
  - intros i Hi. by rewrite get_set_ne.
Qed.

(** X4: [add] of a word is idempotent: a second [add] of the same word
    returns the id the first one returned and changes nothing; whatever the
    vocabulary, [add] returns the id the word has afterwards, never
    [None]. *)
Theorem vocabulary_add_idempotent v (word : string) :
  Vocab.add word (Vocab.add word v).1 = Vocab.add word v
  ∧ (Vocab.add word v).2 = Vocab.word_id (Vocab.add word v).1 word
  ∧ is_Some (Vocab.add word v).2.
Proof.
  unfold Vocab.add, Vocab.word_id.
  destruct (PyDict.get (Vocab._vocab v) word) as [i|] eqn:Hget; simpl.
  - rewrite Hget. simpl. rewrite Hget. repeat split; eauto.
  - rewrite !get_set_eq. simpl. rewrite get_set_eq. repeat split; eauto.
Qed.

(** X5: [add_vocab_offset] moves every id by the offset and nothing
    else: a word's id is the old one plus the offset, an id names the word
    that the id minus the offset named, and the length stays. *)
Theorem vocabulary_offset_shifts lo v offset :
  built lo v →
  let v' := Vocab.add_vocab_offset offset v in
  (∀ w, Vocab.word_id v' w = (fun i => (i + offset)%Z) <$> Vocab.word_id v w)
  ∧ (∀ i, Vocab.id_to_word v' i = Vocab.id_to_word v (i - offset)%Z)
  ∧ Vocab.len v' = Vocab.len v
  ∧ Vocab.next v' = (Vocab.next v + offset)%Z.
Proof.
  intros Hb v'.
  pose proof (built_offset lo v offset Hb) as Hb'. fold v' in Hb'.
  apply built_shape in Hb as (ws & Hnd & Hv & Hr & Hn).
  apply built_shape in Hb' as (ws' & Hnd' & Hv' & Hr' & Hn').
  assert (ws' = ws) as ->.
  { apply (f_equal (fmap fst)) in Hv'. rewrite numbered_fst in Hv'.
    rewrite <-Hv'. unfold v', Vocab.add_vocab_offset, Vocab.vocab. simpl.
    rewrite Hv.
    rewrite (foldl_set_fresh
               (fun kv : string * Z => (kv.1, (kv.2 + offset)%Z))).
    - by rewrite List.app_nil_l, numbered_offset, numbered_fst.
    - by rewrite List.app_nil_l, numbered_offset, numbered_fst. }
  unfold Vocab.word_id, Vocab.id_to_word, Vocab.len.
  rewrite Hv, Hr, Hv', Hr', !numbered_length.
  repeat split.
  - intros w. apply get_numbered_offset.
  - intros i. apply get_swap_numbered_offset.
Qed.

(** X6: two offsets in a row are one offset by their sum, and the offset
    zero changes nothing. *)
Theorem vocabulary_offset_compose lo v a b :
  built lo v →
  Vocab.add_vocab_offset b (Vocab.add_vocab_offset a v)
  = Vocab.add_vocab_offset (a + b) v
  ∧ Vocab.add_vocab_offset 0 v = v.
Proof.
  intros Hb.
  assert (∀ lo v offset, built lo v →
            ∃ ws, NoDup ws ∧ Vocab._vocab v = numbered lo ws
              ∧ Vocab._rev_vocab v = swap <$> numbered lo ws
              ∧ Vocab.next v = (lo + Z.of_nat (length ws))%Z
              ∧ Vocab.add_vocab_offset offset v
                = {| Vocab._vocab := numbered (lo + offset) ws;
                     Vocab._rev_vocab := swap <$> numbered (lo + offset) ws;
                     Vocab.next := (Vocab.next v + offset)%Z |}) as Hoff.
  { clear. intros lo v offset (ws & Hnd & Hv & Hr & Hn)%built_shape.
    exists ws. repeat (split; [done |]).
    unfold Vocab.add_vocab_offset, Vocab.vocab. rewrite Hv.
    rewrite (foldl_set_fresh
               (fun kv : string * Z => (kv.1, (kv.2 + offset)%Z)));
      [| by rewrite List.app_nil_l, numbered_offset, numbered_fst].
    rewrite List.app_nil_l, numbered_offset.
    rewrite (foldl_set_fresh (fun kv : string * Z => swap kv));
      [done | rewrite List.app_nil_l, swap_fst; apply numbered_snd_NoDup]. }
  destruct (Hoff lo v a Hb) as (ws & Hnd & Hv & Hr & Hn & Ea).
  destruct (Hoff lo v (a + b)%Z Hb) as (ws1 & _ & Hv1 & _ & _ & Eab).
  destruct (Hoff lo v 0%Z Hb) as (ws0 & _ & Hv0 & _ & _ & E0).
  assert (ws1 = ws) as ->.
  { apply (f_equal (fmap fst)) in Hv, Hv1. rewrite numbered_fst in Hv, Hv1.
    congruence. }
  assert (ws0 = ws) as ->.
  { apply (f_equal (fmap fst)) in Hv, Hv0. rewrite numbered_fst in Hv, Hv0.
    congruence. }
  split.
  - destruct (Hoff (lo + a)%Z _ b (built_offset lo v a Hb))
      as (ws2 & _ & Hv2 & _ & _ & E2).
    assert (ws2 = ws) as ->.
    { rewrite Ea in Hv2. simpl in Hv2.
      apply (f_equal (fmap fst)) in Hv2. by rewrite !numbered_fst in Hv2. }
    rewrite E2, Eab, Ea. simpl. f_equal.
    + f_equal. lia.
    + do 2 f_equal. lia.
    + lia.
  - rewrite E0, !Z.add_0_r. destruct v as [vv rv nv]. simpl in *.
    by rewrite Hv, Hr.
Qed.

End VocabFacts.

(** ** The tokens of a phrase *)

Section TokenFacts.
Variable stem : string -> string.
Variable spacy_lemmatizer : string -> string -> list string.
Variable lemmatize : string -> string.

Local Abbreviation spacy_normalizer := (Text.spacy_normalizer stem spacy_lemmatizer).
Local Abbreviation simple_normalizer := (Text.simple_normalizer stem lemmatize).

Lemma glue_cons t l : glue (t :: l) = t +:+ glue l.
Proof. reflexivity. Qed.

Lemma split_at_glue s : glue (split_at Text.p s) = without_separators s.
Proof.
  induction s as [|c s IH]; [done |]. simpl split_at. simpl without_separators.
  destruct (split_at_cons Text.p s) as (w & ws & E). rewrite E in IH |- *.
  destruct (Text.p c).
  - by rewrite glue_cons, app_nil_l.
  - rewrite glue_cons in IH |- *. by rewrite app_cons, IH.
Qed.

Lemma split_at_separator_free s :
  Forall (fun t => separator_free t = true) (split_at Text.p s).
Proof.
  induction s as [|c s IH]; simpl; [by repeat constructor |].
  destruct (split_at_cons Text.p s) as (w & ws & E). rewrite E in IH |- *.
  apply Forall_cons in IH as [Hw Hws].
  destruct (Text.p c) eqn:Hc; constructor; try done; try (by constructor).
  unfold separator_free in *. simpl. by rewrite Hc.
Qed.

Lemma glue_filter_nonempty l : glue (List.filter nonempty l) = glue l.
Proof.
  induction l as [|t l IH]; [done |]. simpl.
  destruct t; simpl; by rewrite ?glue_cons, IH.
Qed.

Lemma Forall_filter_nonempty (P : string → Prop) l :
  Forall P l → Forall (fun t => t ≠ "" ∧ P t) (List.filter nonempty l).
Proof.
  induction 1 as [|t l Ht Hl IH]; simpl; [constructor |].
  destruct t; simpl; [done |]. by constructor.
Qed.

(** X7: the tokens a phrase is normalized through are never empty, hold
    no separator character, and lose nothing else: put together they are
    the stripped phrase without its separators.  [simple_normalizer] is the
    stems of their lemmas, joined by spaces. *)
Theorem normalizer_tokens_clean (text : string) :
  Forall (fun t => t ≠ "" ∧ separator_free t = true) (phrase_tokens text)
  ∧ glue (phrase_tokens text) = without_separators (strip text)
  ∧ simple_normalizer text
    = if needs_normalizing text
      then join " " ((fun t => stem (lemmatize t)) <$> phrase_tokens text)
      else text.
Proof.
  unfold phrase_tokens. split; [| split; [| done]].
  - apply Forall_filter_nonempty, split_at_separator_free.
  - by rewrite glue_filter_nonempty, split_at_glue.
Qed.

Lemma mapM_all {A B} (f : A → option B) (g : A → B) l :
  Forall (fun a => f a = Some (g a)) l → mapM f l = Some (g <$> l).
Proof.
  induction 1 as [|a l Hf _ IH]; [done |].
  simpl. rewrite Hf. simpl. by rewrite IH.
Qed.

(** X8: without a lemma, [spacy_normalizer] is [simple_normalizer] run
    with spaCy's lemmatizer: when the first lemma spaCy gives for every
    token of the phrase is what [lemmatize] gives for it, both return the
    same string, whatever the two lemmatizers do on other words. *)
Theorem spacy_normalizer_agrees_with_simple (text : string) :
  Forall (fun t => head (spacy_lemmatizer t "NOUN") = Some (lemmatize t))
    (phrase_tokens text) →
  spacy_normalizer text None = Some (simple_normalizer text).
Proof.
  intros Hagree. unfold Text.spacy_normalizer, Text.simple_normalizer.
  destruct (needs_normalizing text); [| done].
  fold (phrase_tokens text).
  rewrite (mapM_all _ (fun t => stem (lemmatize t))); [done |].
  eapply Forall_impl; [exact Hagree |].
  intros t Ht. unfold Text.stem_lemma. cbn beta. by rewrite Ht.
Qed.

Lemma stem_lemmas_is_Some toks :
  is_Some (mapM (Text.stem_lemma stem spacy_lemmatizer) toks)
  ↔ Forall (fun t => spacy_lemmatizer t "NOUN" ≠ []) toks.
Proof.
  rewrite mapM_is_Some. apply Forall_iff. intros t.
  unfold Text.stem_lemma. simpl.
  destruct (spacy_lemmatizer t "NOUN"); simpl; split; try done; eauto.
Qed.

(** X9: an empty lemma counts as no lemma, and then the only way
    [spacy_normalizer] raises is the lemmatizer returning no lemma for one
    of the tokens: it returns a string exactly when the guard keeps the
    phrase as it is or every token has a lemma. *)
Theorem spacy_normalizer_without_lemma (text : string) :
  spacy_normalizer text (Some "") = spacy_normalizer text None
  ∧ (is_Some (spacy_normalizer text None) ↔
       needs_normalizing text = false
       ∨ Forall (fun t => spacy_lemmatizer t "NOUN" ≠ []) (phrase_tokens text)).
Proof.
  split; [done |]. unfold Text.spacy_normalizer.
  destruct (needs_normalizing text); [| split; eauto].
  fold (phrase_tokens text). rewrite <-stem_lemmas_is_Some.
  destruct (mapM (Text.stem_lemma stem spacy_lemmatizer) (phrase_tokens text))
    as [pieces|]; simpl.
  - split; [intros _; right | intros _]; eauto.
  - split; [by intros [? ?] |]. by intros [? | [? ?]].
Qed.

End TokenFacts.

Section SeparatorFacts.
Variable stem : string -> string.
Variable spacy_lemmatizer : string -> string -> list string.
Variable lemmatize : string -> string.

Local Abbreviation spacy_normalizer := (Text.spacy_normalizer stem spacy_lemmatizer).
Local Abbreviation simple_normalizer := (Text.simple_normalizer stem lemmatize).

Lemma existsb_lstrip (f : ascii → bool) s :
  (∀ c, isspace_c c = true → f c = false) →
  existsb f (chars (lstrip s)) = existsb f (chars s).
Proof.
  intros Hf. induction s as [|c s IH]; [done |]. simpl.
  destruct (isspace_c c) eqn:Hc; [| done].
  rewrite IH. unfold chars. simpl. by rewrite (Hf c Hc).
Qed.

Lemma existsb_rstrip (f : ascii → bool) s :
  (∀ c, isspace_c c = true → f c = false) →
  existsb f (chars (rstrip s)) = existsb f (chars s).
Proof.
  intros Hf. induction s as [|c s IH]; [done |].
  unfold chars in *. simpl. rewrite <-IH.
  destruct (rstrip s) as [|c' r]; simpl; [| done].
  destruct (isspace_c c) eqn:Hc; simpl; [by rewrite (Hf c Hc) | done].
Qed.

Lemma space_not_upper c : isspace_c c = true → isupper_c c = false.
Proof. by destruct c as [[] [] [] [] [] [] [] []]. Qed.

Lemma separator_not_upper c : Text.p c = true → isupper_c c = false.
Proof. by destruct c as [[] [] [] [] [] [] [] []]. Qed.

Lemma existsb_false_forallb (f g : ascii → bool) l :
  (∀ c, g c = true → f c = false) → forallb g l = true → existsb f l = false.
Proof.
  intros Hfg. induction l as [|c l IH]; simpl; [done |].
  intros [Hc Hl]%andb_prop. by rewrite (Hfg c Hc), IH.
Qed.

Lemma split_at_all_separators s :
  forallb Text.p (chars s) = true →
  List.filter nonempty (split_at Text.p s) = [].
Proof.
  induction s as [|c s IH]; [done |]. simpl.
  intros [Hc Hs]%andb_prop. rewrite Hc. simpl. by apply IH.
Qed.

(** X10: a phrase that is empty, whitespace only, or made of separator
    characters between its outer whitespace has no token: both normalizers
    return the empty string for it, without calling the lemmatizer or the
    stemmer. *)
Theorem normalizers_on_separators (text : string) :
  forallb Text.p (chars (strip text)) = true →
  phrase_tokens text = []
  ∧ simple_normalizer text = ""
  ∧ spacy_normalizer text None = Some "".
Proof.
  intros Hsep.
  assert (needs_normalizing text = true) as Hguard.
  { unfold needs_normalizing, isupper.
    assert (existsb isupper_c (chars text) = false) as ->.
    { rewrite <-(existsb_lstrip _ text space_not_upper).
      rewrite <-(existsb_rstrip _ (lstrip text) space_not_upper).
      eapply existsb_false_forallb; [apply separator_not_upper | exact Hsep]. }
    by rewrite andb_false_r. }
  assert (phrase_tokens text = []) as Htok.
  { by apply split_at_all_separators. }
  split; [done |].
  unfold Text.simple_normalizer, Text.spacy_normalizer. rewrite Hguard.
  fold (phrase_tokens text). by rewrite Htok.
Qed.

End SeparatorFacts.

(** ** Documents whose spans are runs of tokens *)

Section RenderFacts.
Variable stem : string -> string.
Variable spacy_lemmatizer : string -> string -> list string.
Variable args : Args.

Local Abbreviation mark_span := (PrepareData.mark_span stem spacy_lemmatizer args).
Local Abbreviation process_token := (PrepareData.process_token stem spacy_lemmatizer args).
Local Abbreviation process_tokens := (PrepareData.process_tokens stem spacy_lemmatizer args).
Local Abbreviation process_doc := (PrepareData.process_doc stem spacy_lemmatizer args).
Local Abbreviation emit_pieces := (Claims.emit_pieces stem spacy_lemmatizer args).

Lemma process_tokens_app toks1 : ∀ toks2 st,
  process_tokens st (toks1 ++ toks2)
  = process_tokens st toks1 ≫= fun st1 => process_tokens st1 toks2.
Proof.
  induction toks1 as [|token toks1 IH]; intros toks2 st; [done |].
  simpl. destruct (process_token st token) as [st'|]; [| done]. simpl. apply IH.
Qed.

(** With no active span left, the rest of the line is copied. *)
Lemma process_tokens_no_span toks : ∀ st,
  span st = None → process_tokens st toks = Some (write (verbatim_all toks) st).
Proof.
  induction toks as [|token toks IH]; intros st Hsp; simpl.
  - by rewrite write_empty.
  - unfold PrepareData.process_token. rewrite Hsp. simpl.
    rewrite write_token_verbatim, IH by done. by rewrite write_write.
Qed.

(** The tokens of a chunk: the first one writes the chunk, the last one
    moves the cursor on. *)
Lemma process_tokens_covered sp toks : ∀ tb out rest w,
  covers sp toks →
  process_tokens
    {| tables := tb; written := out; span := Some sp; spans := rest;
       spanWritten := w |} toks
  = r ← (if w then Some ("", tb) else mark_span sp tb);
    Some {| tables := r.2; written := out +:+ r.1; span := (pop0 rest).1;
            spans := (pop0 rest).2; spanWritten := false |}.
Proof.
  induction toks as [|token toks IH]; intros tb out rest w; [done |].
  intros [Hin Hrest]. cbn [PrepareData.process_tokens].
  unfold PrepareData.process_token. cbn [span]. rewrite Hin.
  unfold PrepareData.write_span. cbn [spanWritten tables written spans span].
  destruct toks as [|token' toks].
  - unfold advance. destruct w; simpl.
    + rewrite (proj2 (Z.eqb_eq _ _) Hrest), app_empty_r.
      by destruct rest.
    + destruct (mark_span sp tb) as [[s tb']|]; [| done]. simpl.
      rewrite (proj2 (Z.eqb_eq _ _) Hrest). by destruct rest.
  - destruct Hrest as [Hne Hcov]. apply Z.eqb_neq in Hne.
    unfold advance. destruct w; cbn -[PrepareData.process_tokens].
    + rewrite Hne. exact (IH tb out rest true Hcov).
    + destruct (mark_span sp tb) as [[s tb']|]; [| done].
      cbn -[PrepareData.process_tokens]. rewrite Hne.
      rewrite (IH tb' (out +:+ s) rest true Hcov). simpl.
      by rewrite app_empty_r.
Qed.

Lemma process_tokens_pieces ps : ∀ tb out,
  aligned ps →
  process_tokens
    {| tables := tb; written := out;
       span := (pop0 (concat (piece_spans <$> ps))).1;
       spans := (pop0 (concat (piece_spans <$> ps))).2;
       spanWritten := false |}
    (concat (piece_tokens <$> ps))
  = r ← emit_pieces ps (tb, out);
    Some {| tables := r.1; written := r.2; span := None; spans := [];
            spanWritten := false |}.
Proof.
  induction ps as [|[token | sp toks] ps IH]; intros tb out; [done | |].
  - intros [Hout Hal].
    change (concat (piece_spans <$> (Free token :: ps)))
      with (concat (piece_spans <$> ps)).
    change (concat (piece_tokens <$> (Free token :: ps)))
      with (token :: concat (piece_tokens <$> ps)).
    cbn [PrepareData.process_tokens Claims.emit_pieces fst snd].
    specialize (IH tb (out +:+ verbatim token) Hal).
    unfold PrepareData.process_token. cbn [span].
    destruct (concat (piece_spans <$> ps)) as [|s S];
      cbn [pop0 fst snd head] in Hout, IH |- *.
    + rewrite write_token_verbatim. exact IH.
    + rewrite Hout, write_token_verbatim. exact IH.
  - intros [Hcov Hal]. cbn [fmap list_fmap concat piece_tokens piece_spans app pop0 fst snd].
    rewrite process_tokens_app, (process_tokens_covered sp toks) by done.
    cbn [Claims.emit_pieces fst snd].
    destruct (mark_span sp tb) as [[s tb']|]; [| done]. simpl.
    by apply IH.
Qed.

Lemma process_doc_pieces ps tb out :
  aligned ps →
  process_doc (tb, out) (doc_of ps)
  = r ← emit_pieces ps (tb, out); Some (r.1, r.2 +:+ nl).
Proof.
  intros Hal. unfold PrepareData.process_doc, start, doc_of.
  cbn [tokens noun_chunks fst snd].
  rewrite (surjective_pairing (pop0 (concat (piece_spans <$> ps)))).
  rewrite (process_tokens_pieces ps tb out Hal).
  by destruct (emit_pieces ps (tb, out)).
Qed.

(** X11: on a document whose chunks are runs of tokens, the loop does
    what the pieces say, in either mode: a free token is copied, a chunk
    goes through the marking branch once, where its first token stands,
    and its other tokens write nothing; then the newline. *)
Theorem aligned_doc_emits_pieces (ps : list Piece) (st : Tables * string) :
  aligned ps →
  process_doc st (doc_of ps)
  = r ← emit_pieces ps st; Some (r.1, r.2 +:+ nl).
Proof.
  intros Hal. unfold PrepareData.process_doc, start, doc_of. simpl.
  destruct (pop0 (concat (piece_spans <$> ps))) as [s rest] eqn:E.
  pose proof (process_tokens_pieces ps st.1 st.2 Hal) as H.
  rewrite E in H. simpl in H. rewrite H. destruct st as [tb out]. simpl.
  by destruct (emit_pieces ps (tb, out)).
Qed.

End RenderFacts.

(** ** Runs in plain mode *)

Section PlainRunFacts.
Variable stem : string -> string.
Variable spacy_lemmatizer : string -> string -> list string.
Variable args : Args.
Hypothesis plain_mode : grouping args = false.

Local Abbreviation mark_span := (PrepareData.mark_span stem spacy_lemmatizer args).
Local Abbreviation process_token := (PrepareData.process_token stem spacy_lemmatizer args).
Local Abbreviation process_tokens := (PrepareData.process_tokens stem spacy_lemmatizer args).
Local Abbreviation process_doc := (PrepareData.process_doc stem spacy_lemmatizer args).
Local Abbreviation process_docs := (PrepareData.process_docs stem spacy_lemmatizer args).
Local Abbreviation emit_pieces := (Claims.emit_pieces stem spacy_lemmatizer args).
Local Abbreviation line_of := (Claims.line_of stem spacy_lemmatizer args).

Lemma mark_span_plain sp tb :
  mark_span sp tb = Some (plain_text (mark_char args) sp, tb).
Proof.
  unfold PrepareData.mark_span, plain_text. rewrite plain_mode.
  destruct (accepted sp); [by rewrite replace_space | done].
Qed.

(** In plain mode a token adds to the output a text that the cursor and
    the token decide, whatever was written before and whatever the tables
    hold, and the tables stay. *)
Lemma process_token_plain sp rest w token :
  ∃ delta sp' rest' w', ∀ tb out,
    process_token
      {| tables := tb; written := out; span := sp; spans := rest;
         spanWritten := w |} token
    = Some {| tables := tb; written := out +:+ delta; span := sp';
              spans := rest'; spanWritten := w' |}.
Proof.
  unfold PrepareData.process_token. cbn [span].
  destruct sp as [s|].
  - destruct (outside token s).
    + exists (verbatim token), (Some s), rest, w. intros tb out.
      by rewrite write_token_verbatim.
    + unfold PrepareData.write_span, advance. cbn [spanWritten tables].
      destruct w.
      * destruct (idx token + len (token_text token) =? end_char s)%Z.
        -- exists "", (pop0 rest).1, (pop0 rest).2, false. intros tb out.
           simpl. rewrite app_empty_r. by destruct rest.
        -- exists "", (Some s), rest, true. intros tb out.
           simpl. by rewrite app_empty_r.
      * destruct (idx token + len (token_text token) =? end_char s)%Z.
        -- exists (plain_text (mark_char args) s), (pop0 rest).1,
             (pop0 rest).2, false.
           intros tb out. rewrite mark_span_plain. simpl. by destruct rest.
        -- exists (plain_text (mark_char args) s), (Some s), rest, true.
           intros tb out. by rewrite mark_span_plain.
  - exists (verbatim token), None, rest, w. intros tb out.
    by rewrite write_token_verbatim.
Qed.

Lemma process_tokens_plain toks : ∀ sp rest w,
  ∃ delta sp' rest' w', ∀ tb out,
    process_tokens
      {| tables := tb; written := out; span := sp; spans := rest;
         spanWritten := w |} toks
    = Some {| tables := tb; written := out +:+ delta; span := sp';
              spans := rest'; spanWritten := w' |}.
Proof.
  induction toks as [|token toks IH]; intros sp rest w.
  - exists "", sp, rest, w. intros tb out. simpl. by rewrite app_empty_r.
  - destruct (process_token_plain sp rest w token) as (d1 & sp1 & rest1 & w1 & H1).
    destruct (IH sp1 rest1 w1) as (d2 & sp2 & rest2 & w2 & H2).
    exists (d1 +:+ d2), sp2, rest2, w2. intros tb out.
    cbn [PrepareData.process_tokens]. rewrite H1. simpl.
    by rewrite H2, app_assoc_s.
Qed.

Lemma process_doc_plain doc :
  ∃ delta, ∀ tb out,
    process_doc (tb, out) doc = Some (tb, (out +:+ delta) +:+ nl).
Proof.
  unfold PrepareData.process_doc, start.
  destruct (pop0 (noun_chunks doc)) as [s rest].
  destruct (process_tokens_plain (tokens doc) s rest false)
    as (delta & sp' & rest' & w' & H).
  exists delta. intros tb out. simpl. by rewrite H.
Qed.

Lemma process_doc_line doc tb out :
  process_doc (tb, out) doc = Some (tb, out +:+ line_of doc).
Proof.
  destruct (process_doc_plain doc) as [delta H]. unfold Claims.line_of.
  rewrite !H. simpl. by rewrite app_nil_l, app_assoc_s.
Qed.

Lemma process_docs_plain docs : ∀ tb out,
  ∃ out', process_docs (tb, out) docs = Some (tb, out').
Proof.
  induction docs as [|doc docs IH]; intros tb out; [by eexists |].
  cbn [PrepareData.process_docs]. rewrite process_doc_line. apply IH.
Qed.

(** X12: without [--grouping] the run never raises and never touches the
    tables, and the line written for a document is the one the document
    gives on its own: the output is what was there before and then the
    lines of the documents, one after the other. *)
Theorem plain_run_lines (docs : list Doc) (tb : Tables) (out : string) :
  process_docs (tb, out) docs = Some (tb, out +:+ glue (line_of <$> docs)).
Proof.
  revert out. induction docs as [|doc docs IH]; intros out.
  - simpl. by rewrite app_empty_r.
  - cbn [PrepareData.process_docs]. rewrite process_doc_line.
    cbn [mbind option_bind]. rewrite IH, fmap_cons, glue_cons.
    by rewrite app_assoc_s.
Qed.

Lemma emit_pieces_plain ps : ∀ tb out,
  emit_pieces ps (tb, out)
  = Some (tb, out +:+ glue (render (mark_char args) <$> ps)).
Proof.
  induction ps as [|[token | sp toks] ps IH]; intros tb out;
    rewrite ?fmap_cons, ?glue_cons; cbn [Claims.emit_pieces render fst snd].
  - simpl. by rewrite app_empty_r.
  - by rewrite IH, app_assoc_s.
  - rewrite mark_span_plain. cbn [mbind option_bind fst snd].
    by rewrite IH, app_assoc_s.
Qed.

(** X13: in plain mode, the line of a document whose chunks are runs of
    tokens is its pieces in order and then the newline: each free token with a
    space after it (nothing for a whitespace token), each chunk as one
    token, marked if it is accepted and as it is if not, whatever its
    tokens are. *)
Theorem plain_line_of_pieces (ps : list Piece) (tb : Tables) (out : string) :
  aligned ps →
  process_doc (tb, out) (doc_of ps)
  = Some (tb, (out +:+ glue (render (mark_char args) <$> ps)) +:+ nl).
Proof.
  intros Hal.
  rewrite (process_doc_pieces stem spacy_lemmatizer args ps tb out Hal).
  by rewrite emit_pieces_plain.
Qed.

End PlainRunFacts.

Section NoSpanFacts.
Variable stem : string -> string.
Variable spacy_lemmatizer : string -> string -> list string.
Variable args : Args.

Local Abbreviation process_doc := (PrepareData.process_doc stem spacy_lemmatizer args).

(** X14: a document without noun chunks is copied, in either mode: its
    line is the tokens that are not whitespace, each followed by a space,
    and the newline, and the tables stay as they are. *)
Theorem doc_without_chunks_verbatim (doc : Doc) (st : Tables * string) :
  noun_chunks doc = [] →
  process_doc st doc
  = Some (st.1, (st.2 +:+ verbatim_all (tokens doc)) +:+ nl).
Proof.
  intros Hno. unfold PrepareData.process_doc, start. rewrite Hno. simpl.
  by rewrite process_tokens_no_span.
Qed.

End NoSpanFacts.

(** ** What a run can raise *)

Section RaiseFacts.
Variable stem : string -> string.
Variable spacy_lemmatizer : string -> string -> list string.
Variable args : Args.

Local Abbreviation span_key := (Claims.span_key stem spacy_lemmatizer args).
Local Abbreviation process_corpus := (PrepareData.process_corpus stem spacy_lemmatizer args).

Lemma span_key_is_Some sp :
  lemma_ sp ≠ ""
  ∨ Forall (fun t => spacy_lemmatizer t "NOUN" ≠ []) (phrase_tokens (text sp)) →
  is_Some (span_key sp).
Proof.
  intros H. unfold Claims.span_key, key_of.
  assert (is_Some (Text.spacy_normalizer stem spacy_lemmatizer (text sp)
                     (Some (lemma_ sp)))) as [raw ->]; [| by eauto].
  destruct H as [Hne | Hall].
  - unfold Text.spacy_normalizer. destruct (needs_normalizing _); [| by eauto].
    destruct (lemma_ sp); [done | by eauto].
  - destruct (lemma_ sp) as [|c l] eqn:El.
    + unfold Text.spacy_normalizer. destruct (needs_normalizing _); [| by eauto].
      fold (phrase_tokens (text sp)).
      apply (stem_lemmas_is_Some stem spacy_lemmatizer) in Hall as [pieces ->].
      simpl. eauto.
    + unfold Text.spacy_normalizer. destruct (needs_normalizing _); by eauto.
Qed.

(** X15: the run raises nothing of its own.  If every noun chunk of the
    corpus has a non-empty lemma, or tokens for all of which the lemmatizer
    returns a lemma, the run comes to its end, in plain and in grouping
    mode: no dictionary lookup of the grouping branch fails. *)
Theorem run_completes (docs : list Doc) :
  (∀ doc sp, doc ∈ docs → sp ∈ noun_chunks doc →
     lemma_ sp ≠ ""
     ∨ Forall (fun t => spacy_lemmatizer t "NOUN" ≠ []) (phrase_tokens (text sp))) →
  is_Some (process_corpus docs).
Proof.
  intros Hall. unfold PrepareData.process_corpus.
  destruct (grouping args) eqn:Hg.
  - pose proof (process_docs_tables stem spacy_lemmatizer args Hg docs
                  (empty_tables, "")) as E.
    destruct (group_nps_well_formed stem spacy_lemmatizer args
                (concat (marked_spans <$> docs)) empty_tables)
      as (tb & Hrun & _); [apply well_formed_empty | |].
    + apply Forall_forall. intros sp (doc & Hdoc & Hsp)%elem_of_concat_fmap.
      apply span_key_is_Some. apply (Hall doc sp Hdoc).
      by apply marked_spans_sub.
    + simpl in E. rewrite Hrun in E.
      destruct (process_docs _ _ _ _ _); [by eauto | done].
  - destruct (process_docs_plain stem spacy_lemmatizer args Hg docs
                empty_tables "") as [out' ->]. eauto.
Qed.

End RaiseFacts.

(** ** What every run keeps *)

Section SoundFacts.
Variable stem : string -> string.
Variable spacy_lemmatizer : string -> string -> list string.
Variable args : Args.

Local Abbreviation group_np := (PrepareData.group_np stem spacy_lemmatizer args).
Local Abbreviation group_nps := (Claims.group_nps stem spacy_lemmatizer args).
Local Abbreviation key_of := (PrepareData.key_of stem spacy_lemmatizer args).
Local Abbreviation process_corpus := (PrepareData.process_corpus stem spacy_lemmatizer args).

Lemma sound_empty : sound empty_tables.
Proof.
  split; [apply well_formed_empty | ..]; simpl.
  - intros v k H. by rewrite lookup_empty in H.
  - intros k g H. by rewrite lookup_empty in H.
  - intros k g v H. by rewrite lookup_empty in H.
  - intros v. rewrite !lookup_empty. split; by intros [? ?].
  - intros v c H. by rewrite lookup_empty in H.
Qed.

Lemma sound_step np lemma norm tb :
  sound tb → key_of np lemma = Some norm →
  ∃ tb',
    group_np np lemma tb
    = Some (replace " " (mark_char args) norm +:+ mark_char args, tb')
    ∧ sound tb'.
Proof.
  intros [Hwf S1 S2 S3 S4 S5] Hkey.
  destruct (group_np_cases stem spacy_lemmatizer args np lemma norm tb Hwf Hkey)
    as (tb' & Hrun & Hid & Hcnt & Hother & Hcases).
  destruct (group_np_well_formed stem spacy_lemmatizer args np lemma norm tb Hwf Hkey)
    as (tb2 & Hrun2 & Hwf' & _ & Hgrp & _).
  assert (tb2 = tb') as -> by congruence.
  exists tb'. split; [done |].
  assert (∀ k g' v, id2group tb' !! k = Some g' → v ∈ g' → v ≠ np →
            ∃ g, id2group tb !! k = Some g ∧ v ∈ g) as Hold.
  { intros k g' v Hg' Hv Hne. destruct (decide (k = norm)) as [-> | Hk].
    - destruct Hcases as [(Hn & Hg1 & _)
        | [(g & r & Hg0 & Hr0 & Hnin & Hg1 & Hr1)
          | (g & r & Hg0 & Hr0 & Hin & Hg1 & Hr1)]];
        rewrite Hg1 in Hg'; injection Hg' as <-.
      + by apply list_elem_of_singleton in Hv.
      + apply elem_of_app in Hv as [Hv | Hv%list_elem_of_singleton]; [by eauto | done].
      + eauto.
    - destruct (Hother k Hk) as [E _]. rewrite E in Hg'. eauto. }
  assert (∀ k g v, id2group tb !! k = Some g → v ∈ g →
            ∃ g', id2group tb' !! k = Some g' ∧ v ∈ g') as Hnew.
  { intros k g v Hg Hv. destruct (decide (k = norm)) as [-> | Hk].
    - destruct Hcases as [(Hn & Hg1 & _)
        | [(g0 & r & Hg0 & Hr0 & Hnin & Hg1 & Hr1)
          | (g0 & r & Hg0 & Hr0 & Hin & Hg1 & Hr1)]]; [congruence | ..];
        assert (g0 = g) as -> by congruence; eexists; (split; [done |]).
      + apply elem_of_app. by left.
      + done.
    - destruct (Hother k Hk) as [E _]. rewrite E. eauto. }
  split; [done | ..].
  - intros v k. rewrite Hid. destruct (decide (v = np)) as [-> | Hne].
    + rewrite lookup_insert_eq. by intros [= <-].
    + rewrite lookup_insert_ne by done. intros H.
      apply S1 in H as (g & Hg & Hv). eauto.
  - intros k g' Hg'. destruct (decide (k = norm)) as [-> | Hk].
    + destruct Hcases as [(Hn & Hg1 & _)
        | [(g & r & Hg0 & Hr0 & Hnin & Hg1 & Hr1)
          | (g & r & Hg0 & Hr0 & Hin & Hg1 & Hr1)]];
        rewrite Hg1 in Hg'; injection Hg' as <-.
      * split; [apply NoDup_singleton | done].
      * destruct (S2 _ _ Hg0) as [Hnd _]. split; [| by destruct g].
        apply NoDup_app. repeat split; [done | | apply NoDup_singleton].
        intros x Hx ->%list_elem_of_singleton. done.
      * by apply (S2 norm).
    + destruct (Hother k Hk) as [E _]. rewrite E in Hg'. by apply (S2 k).
  - intros k g' v Hg' Hv. rewrite Hid. destruct (decide (v = np)) as [-> | Hne].
    + rewrite lookup_insert_eq. eauto.
    + rewrite lookup_insert_ne by done.
      destruct (Hold k g' v Hg' Hv Hne) as (g & Hg & Hvg). eauto.
  - intros v. rewrite Hid, Hcnt. destruct (decide (v = np)) as [-> | Hne].
    + rewrite lookup_insert_eq, count_np_lookup. split; eauto.
    + rewrite lookup_insert_ne, count_np_lookup_ne by done. apply S4.
  - intros v c. rewrite Hcnt. destruct (decide (v = np)) as [-> | Hne].
    + rewrite count_np_lookup. intros [= <-].
      destruct (np2count tb !! np) as [c0|] eqn:E; simpl; [| lia].
      apply S5 in E. lia.
    + rewrite count_np_lookup_ne by done. apply S5.
Qed.

Lemma group_nps_sound occs : ∀ tb tb',
  sound tb → group_nps tb occs = Some tb' → sound tb'.
Proof.
  induction occs as [|sp occs IH]; intros tb tb' Hs; simpl.
  { by intros [= <-]. }
  destruct (group_np _ _ _) as [[o tb1]|] eqn:E; [| done]. simpl.
  pose proof E as (norm & Hkey & _)%group_np_inv.
  destruct (sound_step _ _ _ tb Hs Hkey) as (tb2 & E2 & Hs2).
  assert (tb2 = tb1) as -> by congruence. by apply IH.
Qed.

(** X16: after a run over any corpus, in either mode, the tables hang
    together: every key with a group has a representative and conversely,
    the representative is in the group, a phrase is in the group of the
    key [np2id] gives it, no group is empty or lists a variant twice,
    every variant of a group has a key, and the phrases with a key are
    those with a count, which is at least one. *)
Theorem run_keeps_tables_sound (docs : list Doc) (tb : Tables) (out : string) :
  process_corpus docs = Some (tb, out) → sound tb.
Proof.
  intros Hrun. destruct (grouping args) eqn:Hg.
  - apply (process_corpus_tables stem spacy_lemmatizer args Hg) in Hrun.
    eapply group_nps_sound; [apply sound_empty | exact Hrun].
  - unfold PrepareData.process_corpus in Hrun.
    destruct (process_docs_plain stem spacy_lemmatizer args Hg docs
                empty_tables "") as [out' E].
    rewrite E in Hrun. injection Hrun as <- _. apply sound_empty.
Qed.

End SoundFacts.

(** ** Nothing is taken back *)

Section ExtendFacts.
Variable stem : string -> string.
Variable spacy_lemmatizer : string -> string -> list string.
Variable args : Args.

Local Abbreviation mark_span := (PrepareData.mark_span stem spacy_lemmatizer args).
Local Abbreviation group_np := (PrepareData.group_np stem spacy_lemmatizer args).
Local Abbreviation process_token := (PrepareData.process_token stem spacy_lemmatizer args).
Local Abbreviation process_tokens := (PrepareData.process_tokens stem spacy_lemmatizer args).
Local Abbreviation process_doc := (PrepareData.process_doc stem spacy_lemmatizer args).
Local Abbreviation process_docs := (PrepareData.process_docs stem spacy_lemmatizer args).

Lemma extends_refl a : extends a a.
Proof.
  split; eauto.
  - exists "". by rewrite app_empty_r.
  - intros k g Hg. exists []. by rewrite app_nil_r.
  - intros v. lia.
Qed.

Lemma extends_trans a b c : extends a b → extends b c → extends a c.
Proof.
  intros [[m1 W1] G1 R1 I1 C1] [[m2 W2] G2 R2 I2 C2]. split; eauto.
  - exists (m1 +:+ m2). by rewrite W2, W1, app_assoc_s.
  - intros k g Hg. destruct (G1 k g Hg) as [g1 Hg1].
    destruct (G2 k _ Hg1) as [g2 Hg2]. exists (g1 ++ g2).
    by rewrite app_assoc.
  - intros v. specialize (C1 v). specialize (C2 v). lia.
Qed.

Lemma extends_write tb out s : extends (tb, out) (tb, out +:+ s).
Proof.
  split; simpl; eauto.
  - intros k g Hg. exists []. by rewrite app_nil_r.
  - intros v. lia.
Qed.

Lemma lookup_insert_is_Some_keep {V} (m : gmap string V) k k' v :
  is_Some (m !! k) → is_Some (<[k' := v]> m !! k).
Proof.
  intros H. destruct (decide (k' = k)) as [-> | Hne].
  - rewrite lookup_insert_eq. eauto.
  - by rewrite lookup_insert_ne.
Qed.

(** Lines 122-132 on any tables. *)
Lemma group_update_extends np norm tb tb' out :
  group_update np norm tb = Some tb' → extends (tb, out) (tb', out).
Proof.
  intros H. unfold group_update in H.
  set (rep1 := match id2rep tb !! norm with
               | Some _ => id2rep tb
               | None => <[norm := np]> (id2rep tb)
               end) in H.
  assert (∀ k, is_Some (id2rep tb !! k) → is_Some (rep1 !! k)) as Hrep1.
  { intros k Hk. unfold rep1. destruct (id2rep tb !! norm); [done |].
    by apply lookup_insert_is_Some_keep. }
  assert (∀ (g : list string), g = g ++ []) as Hnil.
  { intros g. by rewrite app_nil_r. }
  destruct (id2group tb !! norm) as [group|] eqn:Hn.
  - destruct (decide (np ∈ group)).
    + destruct (np2count tb !! np) as [c|]; [| done]. simpl in H.
      destruct (rep1 !! norm) as [rep|]; [| done]. simpl in H.
      destruct (np2count tb !! rep) as [crep|]; [| done]. simpl in H.
      injection H as <-. split; simpl.
      * exists "". by rewrite app_empty_r.
      * intros k g Hg. exists []. by rewrite <-Hnil.
      * intros k Hk%Hrep1.
        destruct (crep <? c)%Z; [by apply lookup_insert_is_Some_keep | done].
      * intros v Hv. by apply lookup_insert_is_Some_keep.
      * intros v. unfold count_of. simpl. lia.
    + injection H as <-. split; simpl.
      * exists "". by rewrite app_empty_r.
      * intros k g Hg. destruct (decide (k = norm)) as [-> | Hk].
        -- rewrite lookup_insert_eq. exists [np]. congruence.
        -- rewrite lookup_insert_ne by done. exists []. by rewrite <-Hnil.
      * intros k Hk. by apply Hrep1.
      * intros v Hv. by apply lookup_insert_is_Some_keep.
      * intros v. unfold count_of. simpl. lia.
  - injection H as <-. split; simpl.
    + exists "". by rewrite app_empty_r.
    + intros k g Hg. rewrite lookup_insert_ne by congruence.
      exists []. by rewrite <-Hnil.
    + intros k Hk%Hrep1. by apply lookup_insert_is_Some_keep.
    + intros v Hv. by apply lookup_insert_is_Some_keep.
    + intros v. unfold count_of. simpl. lia.
Qed.

Lemma count_np_extends np tb out :
  extends (tb, out) (with_count (count_np np (np2count tb)) tb, out).
Proof.
  split; simpl; eauto.
  - exists "". by rewrite app_empty_r.
  - intros k g Hg. exists []. by rewrite app_nil_r.
  - intros v.
    rewrite (count_of_count_np np tb
               (with_count (count_np np (np2count tb)) tb) v eq_refl).
    case_decide; lia.
Qed.

Lemma mark_span_extends sp tb s tb' out :
  mark_span sp tb = Some (s, tb') → extends (tb, out) (tb', out +:+ s).
Proof.
  unfold PrepareData.mark_span. destruct (accepted sp).
  - destruct (grouping args).
    + destruct (group_np _ _ _) as [[o tb1]|] eqn:E; [| done]. simpl.
      intros [= <- <-].
      apply group_np_inv in E as (norm & _ & Hup & _).
      eapply extends_trans; [apply (count_np_extends (text sp)) |].
      eapply extends_trans; [exact (group_update_extends _ _ _ _ out Hup) |].
      apply extends_write.
    + intros [= <- <-]. apply extends_write.
  - intros [= <- <-]. apply extends_write.
Qed.

Lemma process_token_extends st token st' :
  process_token st token = Some st' →
  extends (tables st, written st) (tables st', written st').
Proof.
  unfold PrepareData.process_token.
  assert (extends (tables st, written st)
            (tables (write_token token st), written (write_token token st)))
    as Hw.
  { rewrite write_token_verbatim. apply extends_write. }
  destruct (span st) as [sp|]; [| by intros [= <-]].
  destruct (outside token sp); [by intros [= <-] |].
  unfold PrepareData.write_span.
  destruct (spanWritten st).
  - simpl. intros [= <-]. unfold advance.
    destruct (_ =? _)%Z; [| apply extends_refl].
    destruct (pop0 (spans st)). apply extends_refl.
  - destruct (mark_span sp (tables st)) as [[s tb]|] eqn:E; [| done]. simpl.
    intros [= <-]. unfold advance. simpl.
    destruct (_ =? _)%Z; [destruct (pop0 (spans st)) |]; simpl;
      exact (mark_span_extends sp _ _ _ _ E).
Qed.

Lemma process_tokens_extends toks : ∀ st st',
  process_tokens st toks = Some st' →
  extends (tables st, written st) (tables st', written st').
Proof.
  induction toks as [|token toks IH]; intros st st'; simpl.
  { intros [= <-]. apply extends_refl. }
  destruct (process_token st token) as [st1|] eqn:E; [| done]. simpl.
  intros H. eapply extends_trans; [by eapply process_token_extends | by apply IH].
Qed.

Lemma process_doc_extends st doc st' :
  process_doc st doc = Some st' → extends st st'.
Proof.
  unfold PrepareData.process_doc.
  destruct (process_tokens _ _) as [st1|] eqn:E; [| done]. simpl.
  intros [= <-]. apply process_tokens_extends in E.
  unfold start in E. destruct (pop0 (noun_chunks doc)). simpl in E.
  destruct st as [tb out]. simpl in E.
  eapply extends_trans; [exact E | apply extends_write].
Qed.

(** X17: a run takes nothing back.  After any number of further
    documents, in either mode and from any tables, the output is the old
    output continued, every group is the old group continued (its variants
    keep their order), every key keeps a representative, every phrase keeps
    a key and no count has gone down. *)
Theorem run_only_extends (docs : list Doc) (st st' : Tables * string) :
  process_docs st docs = Some st' → extends st st'.
Proof.
  revert st. induction docs as [|doc docs IH]; intros st; simpl.
  { intros [= <-]. apply extends_refl. }
  destruct (process_doc st doc) as [st1|] eqn:E; [| done]. simpl.
  intros H. eapply extends_trans; [by eapply process_doc_extends | by apply IH].
Qed.

End ExtendFacts.

(** ** Counting the chunks *)

Section CountFacts.
Variable stem : string -> string.
Variable spacy_lemmatizer : string -> string -> list string.
Variable args : Args.
Hypothesis grouping_on : grouping args = true.

Local Abbreviation group_np := (PrepareData.group_np stem spacy_lemmatizer args).
Local Abbreviation group_nps := (Claims.group_nps stem spacy_lemmatizer args).
Local Abbreviation process_doc := (PrepareData.process_doc stem spacy_lemmatizer args).
Local Abbreviation process_docs := (PrepareData.process_docs stem spacy_lemmatizer args).
Local Abbreviation process_corpus := (PrepareData.process_corpus stem spacy_lemmatizer args).
Local Abbreviation emit_pieces := (Claims.emit_pieces stem spacy_lemmatizer args).

Lemma emit_pieces_tables ps : ∀ tb out,
  fst <$> emit_pieces ps (tb, out)
  = group_nps tb (List.filter accepted (concat (piece_spans <$> ps))).
Proof.
  induction ps as [|[token | sp toks] ps IH]; intros tb out; [done | apply IH |].
  cbn [fmap list_fmap concat piece_spans app List.filter Claims.emit_pieces fst snd].
  unfold PrepareData.mark_span. rewrite grouping_on.
  destruct (accepted sp); [| apply IH].
  cbn [Claims.group_nps].
  destruct (group_np (text sp) (lemma_ sp) tb) as [[o tb1]|]; [| done].
  simpl. apply IH.
Qed.

Lemma aligned_doc_tables ps st :
  aligned ps →
  fst <$> process_doc st (doc_of ps)
  = group_nps st.1 (List.filter accepted (noun_chunks (doc_of ps))).
Proof.
  intros Hal. destruct st as [tb out].
  rewrite (process_doc_pieces stem spacy_lemmatizer args ps tb out Hal).
  simpl. rewrite <-(emit_pieces_tables ps tb out).
  by destruct (emit_pieces ps (tb, out)).
Qed.

Lemma aligned_docs_tables pss : ∀ st,
  Forall aligned pss →
  fst <$> process_docs st (doc_of <$> pss)
  = group_nps st.1
      (List.filter accepted (concat (noun_chunks <$> (doc_of <$> pss)))).
Proof.
  induction pss as [|ps pss IH]; intros st Hall; [done |].
  apply Forall_cons in Hall as [Hal Hall].
  cbn [fmap list_fmap concat PrepareData.process_docs].
  rewrite List.filter_app, group_nps_app, <-(aligned_doc_tables ps st Hal).
  destruct (process_doc st (doc_of ps)) as [st1|]; [| done]. simpl.
  by apply IH.
Qed.

(** X18: in grouping mode, over documents whose chunks are runs of
    tokens, [np2count] counts the accepted noun chunks: the count of a
    phrase is the number of accepted chunks with that text in the corpus,
    and the phrases with a key in [np2id] are those met at least once. *)
Theorem np2count_counts_chunks (pss : list (list Piece)) (tb : Tables) (out : string) :
  Forall aligned pss →
  process_corpus (doc_of <$> pss) = Some (tb, out) →
  ∀ v,
    count_of tb v
    = occurrences v
        (List.filter accepted (concat (noun_chunks <$> (doc_of <$> pss))))
    ∧ (is_Some (np2id tb !! v) ↔ (0 < count_of tb v)%Z).
Proof.
  intros Hall Hrun v.
  unfold PrepareData.process_corpus in Hrun.
  pose proof (aligned_docs_tables pss (empty_tables, "") Hall) as E.
  rewrite Hrun in E. simpl in E. symmetry in E.
  pose proof (group_nps_sound stem spacy_lemmatizer args _ _ _
                sound_empty E) as [_ _ _ _ Hcounted Hpos].
  split.
  - rewrite (group_nps_count stem spacy_lemmatizer args _ _ _ v E).
    unfold count_of at 1. simpl. rewrite lookup_empty. simpl. lia.
  - rewrite Hcounted. unfold count_of. split.
    + intros [c Hc]. rewrite Hc. simpl. apply Hpos in Hc. lia.
    + destruct (np2count tb !! v); simpl; [by eauto | lia].
Qed.

End CountFacts.

(** ** Marked tokens *)

Section TokenShapeFacts.
Variable stem : string -> string.
Variable spacy_lemmatizer : string -> string -> list string.
Variable args : Args.

Local Abbreviation mark_span := (PrepareData.mark_span stem spacy_lemmatizer args).
Local Abbreviation group_np := (PrepareData.group_np stem spacy_lemmatizer args).
Local Abbreviation key_of := (PrepareData.key_of stem spacy_lemmatizer args).

(** [s.replace(a, new)] with a one-character [a] works character by
    character. *)
Lemma replace_char a new s : replace (String a "") new s = subst_char a new s.
Proof.
  unfold replace. induction s as [|c s IH]; [done |].
  cbn [replace_from subst_char String.prefix String.length Nat.sub].
  destruct (ascii_dec a c) as [<- | Hne].
  - by rewrite prefix_empty, IH, Ascii.eqb_refl.
  - rewrite IH. destruct (Ascii.eqb_spec c a) as [-> | _]; done.
Qed.

Lemma contains_char_cons a c s :
  contains (String a "") (String c s) = false → c ≠ a ∧ contains (String a "") s = false.
Proof.
  rewrite contains_unfold, prefix_cons.
  destruct (ascii_dec a c) as [<- | Hne]; [by rewrite prefix_empty |].
  intros H. split; [congruence | done].
Qed.

(** Spaces to marker and marker to spaces gives the string back, if it
    held no marker. *)
Lemma subst_char_round_trip c s :
  c ≠ " "%char → contains (String c "") s = false →
  subst_char c " " (subst_char " " (String c "") s) = s.
Proof.
  intros Hc. induction s as [|x s IH]; [done |].
  intros [Hx Hs]%contains_char_cons. cbn [subst_char].
  destruct (Ascii.eqb_spec x " ") as [-> | Hsp].
  - rewrite app_cons, app_nil_l. cbn [subst_char].
    by rewrite Ascii.eqb_refl, app_cons, app_nil_l, IH.
  - rewrite app_cons, app_nil_l. cbn [subst_char].
    destruct (Ascii.eqb_spec x c) as [-> | _]; [done |].
    by rewrite app_cons, app_nil_l, IH.
Qed.

Lemma no_space_app s1 s2 :
  no_space (s1 +:+ s2) = no_space s1 && no_space s2.
Proof.
  unfold no_space, chars. induction s1 as [|c s1 IH]; [done |].
  rewrite app_cons. simpl. by rewrite IH, andb_assoc.
Qed.

Lemma no_space_subst new s :
  no_space new = true → no_space (subst_char " " new s) = true.
Proof.
  intros Hnew. induction s as [|c s IH]; [done |].
  cbn [subst_char]. rewrite no_space_app, IH, andb_true_r.
  destruct (Ascii.eqb_spec c " ") as [-> | Hne]; [done |].
  unfold no_space. simpl. rewrite andb_true_r.
  by apply negb_true_iff, Ascii.eqb_neq.
Qed.

Lemma sanitize_clean mark raw :
  mark ≠ "" → no_space mark = true → contains mark (sanitize mark raw) = false.
Proof.
  intros Hne Hsp. unfold sanitize.
  destruct (contains mark raw) eqn:E; [by apply replace_clean | done].
Qed.

Lemma group_update_np2id np norm tb tb' :
  group_update np norm tb = Some tb' → np2id tb' !! np = Some norm.
Proof.
  intros H.
  assert (np2id tb' = <[np := norm]> (np2id tb)) as ->.
  { unfold group_update in H. repeat (case_match; simplify_option_eq); done. }
  apply lookup_insert_eq.
Qed.

(** X19: with a one-character marker other than the space, the token
    written for an accepted span can be read back: taking the last marker
    off and turning the markers into spaces gives, in grouping mode, the
    key that [np2id] now holds for the span's text, and in plain mode the
    span's text if that holds no marker. *)
Theorem marked_token_decodes (c : ascii) (sp : Span) (tb tb' : Tables) (out : string) :
  mark_char args = String c "" → c ≠ " "%char →
  accepted sp = true →
  (grouping args = false → contains (mark_char args) (text sp) = false) →
  mark_span sp tb = Some (out, tb') →
  ∃ body,
    out = (replace " " (mark_char args) body +:+ mark_char args) +:+ " "
    ∧ replace (mark_char args) " " (replace " " (mark_char args) body) = body
    ∧ if grouping args then np2id tb' !! text sp = Some body
      else body = text sp ∧ tb' = tb.
Proof.
  intros Hmark Hc Hacc Hplain. unfold PrepareData.mark_span. rewrite Hacc.
  assert (∀ body, contains (mark_char args) body = false →
            replace (mark_char args) " " (replace " " (mark_char args) body)
            = body) as Hback.
  { intros body Hb. rewrite Hmark in Hb |- *.
    rewrite !replace_char. by apply subst_char_round_trip. }
  destruct (grouping args).
  - destruct (group_np _ _ _) as [[o tb1]|] eqn:E; [| done]. simpl.
    intros [= <- <-]. apply group_np_inv in E as (norm & Hkey & Hup & ->).
    exists norm. split; [done |]. split; [| by eapply group_update_np2id].
    apply Hback. unfold PrepareData.key_of in Hkey.
    destruct (Text.spacy_normalizer _ _ _ _) as [raw|]; [| done].
    injection Hkey as <-. apply sanitize_clean.
    + by rewrite Hmark.
    + rewrite Hmark. unfold no_space. simpl. rewrite andb_true_r.
      by apply negb_true_iff, Ascii.eqb_neq.
  - intros [= <- <-]. exists (text sp). split; [done |]. split; [| done].
    by apply Hback, Hplain.
Qed.

(** X20: when the marker holds no space, an accepted span comes out as
    one token: what is written is a string without any space that ends in
    the marker, and then one space. *)
Theorem marked_token_is_one_token (sp : Span) (tb tb' : Tables) (out : string) :
  no_space (mark_char args) = true →
  accepted sp = true →
  mark_span sp tb = Some (out, tb') →
  ∃ token,
    out = token +:+ " " ∧ no_space token = true
    ∧ endswith token (mark_char args) = true.
Proof.
  intros Hsp Hacc. unfold PrepareData.mark_span. rewrite Hacc.
  assert (∀ body,
            no_space (replace " " (mark_char args) body +:+ mark_char args) = true
            ∧ endswith (replace " " (mark_char args) body +:+ mark_char args)
                (mark_char args) = true) as Hshape.
  { intros body. split.
    - by rewrite no_space_app, replace_char, no_space_subst, Hsp.
    - apply endswith_spec. eauto. }
  destruct (grouping args).
  - destruct (group_np _ _ _) as [[o tb1]|] eqn:E; [| done]. simpl.
    intros [= <- <-]. apply group_np_inv in E as (norm & _ & _ & ->).
    eexists. split; [done |]. apply Hshape.
  - intros [= <- <-]. eexists. split; [done |]. apply Hshape.
Qed.

End TokenShapeFacts.

(** ** Sample runs, continued *)

Section MoreSampleRuns.

Lemma two_words_built : built 5 two_words.
Proof. exact (built_add 5 _ "b" (built_add 5 _ "a" (built_init 5))). Qed.

Lemma climate_pieces_aligned : aligned climate_pieces.
Proof. by vm_compute. Qed.

Lemma nbsp_pieces_aligned : aligned nbsp_pieces.
Proof. by vm_compute. Qed.

Lemma vocabulary_round_trip_witness :
  built 5 two_words
  ∧ (Vocab.word_id two_words "b" = Some 6%Z
     ↔ Vocab.id_to_word two_words 6 = Some "b").
Proof.
  split; [exact two_words_built |].
  exact (vocabulary_round_trip 5 two_words "b" 6 two_words_built).
Defined.

Lemma vocabulary_ids_consecutive_witness :
  built 5 two_words
  ∧ Vocab.len two_words = (Vocab.next two_words - 5)%Z
  ∧ ∀ i, is_Some (Vocab.id_to_word two_words i) ↔ (5 <= i < Vocab.next two_words)%Z.
Proof.
  split; [exact two_words_built |].
  exact (vocabulary_ids_consecutive 5 two_words two_words_built).
Defined.

Lemma vocabulary_add_new_witness :
  built 5 (Vocab.init 5) ∧ Vocab.word_id (Vocab.init 5) "a" = None
  ∧ (Vocab.add "a" (Vocab.init 5)).2 = Some 5%Z
  ∧ Vocab.id_to_word (Vocab.add "a" (Vocab.init 5)).1 5 = Some "a".
Proof.
  split; [exact (built_init 5) |]. split; [reflexivity |].
  pose proof (vocabulary_add_new 5 (Vocab.init 5) "a" (built_init 5) eq_refl) as H.
  cbv zeta in H. destruct H as (H1 & _ & H3 & _). exact (conj H1 H3).
Defined.

Lemma vocabulary_offset_shifts_witness :
  built 5 two_words
  ∧ Vocab.word_id (Vocab.add_vocab_offset 10 two_words) "a"
    = (fun i => (i + 10)%Z) <$> Vocab.word_id two_words "a".
Proof.
  split; [exact two_words_built |].
  pose proof (vocabulary_offset_shifts 5 two_words 10 two_words_built) as H.
  cbv zeta in H. destruct H as (H1 & _). exact (H1 "a").
Defined.

Lemma vocabulary_offset_compose_witness :
  built 5 two_words
  ∧ Vocab.add_vocab_offset 4 (Vocab.add_vocab_offset 3 two_words)
    = Vocab.add_vocab_offset (3 + 4) two_words.
Proof.
  split; [exact two_words_built |].
  exact (proj1 (vocabulary_offset_compose 5 two_words 3 4 two_words_built)).
Defined.

Lemma spacy_normalizer_agrees_with_simple_witness :
  head (one_lemma "mice" "NOUN") ≠ Some (singular "mice")
  ∧ Forall (fun t => head (one_lemma t "NOUN") = Some (singular t))
      (phrase_tokens "big-cat box")
  ∧ Text.simple_normalizer keep singular "big-cat box" = "big cat box"
  ∧ Text.spacy_normalizer keep one_lemma "big-cat box" None
    = Some (Text.simple_normalizer keep singular "big-cat box").
Proof.
  assert (Forall (fun t => head (one_lemma t "NOUN") = Some (singular t))
            (phrase_tokens "big-cat box")) as Hagree.
  { repeat constructor. }
  split; [done |]. split; [exact Hagree |]. split; [reflexivity |].
  exact (spacy_normalizer_agrees_with_simple keep one_lemma singular
           "big-cat box" Hagree).
Defined.

Lemma normalizers_on_separators_witness :
  forallb Text.p (chars (strip " -,- ")) = true
  ∧ phrase_tokens " -,- " = []
  ∧ Text.simple_normalizer keep keep " -,- " = ""
  ∧ Text.spacy_normalizer keep one_lemma " -,- " None = Some "".
Proof.
  split; [reflexivity |].
  exact (normalizers_on_separators keep one_lemma keep " -,- " eq_refl).
Defined.

Lemma aligned_doc_emits_pieces_witness :
  aligned climate_pieces
  ∧ PrepareData.process_doc keep one_lemma grouped (empty_tables, "")
      (doc_of climate_pieces)
    = r ← emit_pieces keep one_lemma grouped climate_pieces (empty_tables, "");
      Some (r.1, r.2 +:+ nl).
Proof.
  split; [exact climate_pieces_aligned |].
  exact (aligned_doc_emits_pieces keep one_lemma grouped climate_pieces
           (empty_tables, "") climate_pieces_aligned).
Defined.

Lemma plain_run_lines_witness :
  grouping plain = false
  ∧ PrepareData.process_docs keep one_lemma plain (empty_tables, "")
      [climate; big_cat]
    = Some (empty_tables,
            "" +:+ glue (line_of keep one_lemma plain <$> [climate; big_cat])).
Proof.
  split; [reflexivity |].
  exact (plain_run_lines keep one_lemma plain eq_refl [climate; big_cat]
           empty_tables "").
Defined.

Lemma plain_line_of_pieces_witness :
  grouping plain = false ∧ aligned nbsp_pieces
  ∧ ("" +:+ glue (render (mark_char plain) <$> nbsp_pieces)) +:+ nl
    = "a big_cat_ " +:+ nl
  ∧ PrepareData.process_doc keep one_lemma plain (empty_tables, "")
      (doc_of nbsp_pieces)
    = Some (empty_tables,
            ("" +:+ glue (render (mark_char plain) <$> nbsp_pieces)) +:+ nl).
Proof.
  split; [reflexivity |]. split; [exact nbsp_pieces_aligned |].
  split; [reflexivity |].
  exact (plain_line_of_pieces keep one_lemma plain eq_refl nbsp_pieces
           empty_tables "" nbsp_pieces_aligned).
Defined.

Lemma doc_without_chunks_verbatim_witness :
  noun_chunks a_nbsp_b = []
  ∧ ("" +:+ verbatim_all (tokens a_nbsp_b)) +:+ nl = "a b " +:+ nl
  ∧ PrepareData.process_doc keep one_lemma grouped (empty_tables, "") a_nbsp_b
    = Some (empty_tables, ("" +:+ verbatim_all (tokens a_nbsp_b)) +:+ nl).
Proof.
  split; [reflexivity |]. split; [reflexivity |].
  exact (doc_without_chunks_verbatim keep one_lemma grouped a_nbsp_b
           (empty_tables, "") eq_refl).
Defined.

Lemma run_completes_witness :
  is_Some (PrepareData.process_corpus keep one_lemma grouped [ny_first; ny_second]).
Proof.
  apply run_completes. intros doc sp Hdoc Hsp. left.
  assert (Forall (fun doc => Forall (fun sp => lemma_ sp ≠ "") (noun_chunks doc))
            [ny_first; ny_second]) as Hall.
  { repeat constructor; done. }
  rewrite Forall_forall in Hall. specialize (Hall doc Hdoc).
  rewrite Forall_forall in Hall. exact (Hall sp Hsp).
Defined.

Lemma run_keeps_tables_sound_witness : sound tie_tables.
Proof.
  apply (run_keeps_tables_sound keep one_lemma grouped tie_corpus tie_tables
           ("x_y_ " +:+ nl +:+ "x_y_ " +:+ nl +:+ "x_y_ " +:+ nl +:+ "x_y_ " +:+ nl)).
  by vm_compute.
Defined.

Lemma run_only_extends_witness :
  ∃ st',
    PrepareData.process_docs keep one_lemma grouped (rekeyed_tables, "")
      [phrase "a b" "y"] = Some st'
    ∧ extends (rekeyed_tables, "") st'.
Proof.
  destruct (PrepareData.process_docs keep one_lemma grouped (rekeyed_tables, "")
              [phrase "a b" "y"]) as [st'|] eqn:E; [| by vm_compute in E].
  exists st'. split; [reflexivity |].
  exact (run_only_extends keep one_lemma grouped [phrase "a b" "y"]
           (rekeyed_tables, "") st' E).
Defined.

Lemma np2count_counts_chunks_witness :
  ∃ tb out,
    PrepareData.process_corpus keep one_lemma grouped (doc_of <$> [climate_pieces])
    = Some (tb, out)
    ∧ count_of tb "climate change" = 1%Z.
Proof.
  destruct (PrepareData.process_corpus keep one_lemma grouped
              (doc_of <$> [climate_pieces])) as [[tb out]|] eqn:E;
    [| by vm_compute in E].
  exists tb, out. split; [reflexivity |].
  assert (Forall aligned [climate_pieces]) as Hal.
  { constructor; [exact climate_pieces_aligned | constructor]. }
  exact (proj1 (np2count_counts_chunks keep one_lemma grouped eq_refl
                  [climate_pieces] tb out Hal E "climate change")).
Defined.

Lemma marked_token_decodes_witness :
  ∃ out tb',
    PrepareData.mark_span keep one_lemma grouped e_mail empty_tables
    = Some (out, tb')
    ∧ ∃ body,
        out = (replace " " "_" body +:+ "_") +:+ " "
        ∧ replace "_" " " (replace " " "_" body) = body
        ∧ np2id tb' !! "e_mail box" = Some body.
Proof.
  destruct (PrepareData.mark_span keep one_lemma grouped e_mail empty_tables)
    as [[out tb']|] eqn:E; [| by vm_compute in E].
  exists out, tb'. split; [reflexivity |].
  assert ("_"%char ≠ " "%char) as Hc by done.
  assert (grouping grouped = false →
          contains (mark_char grouped) (text e_mail) = false) as Hplain by done.
  exact (marked_token_decodes keep one_lemma grouped "_" e_mail empty_tables
           tb' out eq_refl Hc eq_refl Hplain E).
Defined.

Lemma marked_token_is_one_token_witness :
  ∃ token,
    "the__cat_ " = token +:+ " " ∧ no_space token = true
    ∧ endswith token "_" = true.
Proof.
  exact (marked_token_is_one_token keep one_lemma plain the_cat empty_tables
           empty_tables "the__cat_ " eq_refl eq_refl eq_refl).
Defined.

End MoreSampleRuns.
